(** * CUinSpace simulated flight: resources, event queue, systems, manager

    A shallow embedding of the C sources (defs.h, resource.c, event.c,
    system.c, manager.c) and the properties of the resource pool, of the
    priority queue of events, of the per-system production cycle and of the
    manager's reaction to events.

    Conventions of the embedding:
    - a C [int] is a [Z]; arithmetic goes through [wrap], the 32-bit two's
      complement wrap-around;
    - a pointer is an [option loc]: [None] is [NULL], [Some l] an address in
      the heap of resources or of systems;
    - the code of one thread is run sequentially: the binary semaphores
      ([sem_wait]/[sem_post] around each critical section) are free on entry
      and released on exit, so they are not represented;
    - dereferencing [NULL] or an address that holds no object is [Crash];
    - loops that the source leaves unbounded take a fuel and give [OutOfFuel]
      when it is used up;
    - what the program prints or sleeps is appended to a trace of [Output]. *)

From stdpp Require Import gmap strings list fin_maps.
From Stdlib Require Import ZArith Lia.

Local Open Scope Z_scope.

(** ** defs.h: constants *)

Definition MODE_TERMINATE : Z := 0.
Definition MODE_DISABLED  : Z := 1.
Definition MODE_SLOW      : Z := 2.
Definition MODE_STANDARD  : Z := 3.
Definition MODE_FAST      : Z := 4.

Definition PRIORITY_HIGH : Z := 0xF000.
Definition PRIORITY_MED  : Z := 0xA000.
Definition PRIORITY_LOW  : Z := 0x8000.
Definition PRIORITY_IGN  : Z := 0x0000.

Definition EVENT_OK           : Z := Z.lor PRIORITY_IGN  0x0000.
Definition EVENT_LOW          : Z := Z.lor PRIORITY_MED  0x0001.
Definition EVENT_INSUFFICIENT : Z := Z.lor PRIORITY_HIGH 0x0002.
Definition EVENT_CAPACITY     : Z := Z.lor PRIORITY_MED  0x0003.
Definition EVENT_HIGH         : Z := Z.lor PRIORITY_MED  0x0004.
Definition EVENT_PRODUCED     : Z := Z.lor PRIORITY_IGN  0x0010.

Definition PARAM_MANAGER_WAIT   : Z := 10.
Definition PARAM_SYSTEM_WAIT    : Z := 500.
Definition PARAM_RESOURCE_LOW   : Z := 2.
Definition PARAM_RESOURCE_HIGH  : Z := 5.
Definition PARAM_SPEED_MODIFIER : Z := 1.

Definition SINGLE_THREAD_MODE : Z := 0.

(** ** C integers *)

Definition INT_MIN : Z := - 2 ^ 31.
Definition INT_MAX : Z := 2 ^ 31 - 1.

(** 32-bit two's complement wrap-around. *)
Definition wrap (z : Z) : Z := (z + 2 ^ 31) mod 2 ^ 32 - 2 ^ 31.

Definition int_add (a b : Z) : Z := wrap (a + b).
Definition int_sub (a b : Z) : Z := wrap (a - b).
Definition int_mul (a b : Z) : Z := wrap (a * b).
(** C division truncates towards zero. *)
Definition int_div (a b : Z) : Z := wrap (Z.quot a b).

Definition in_int (z : Z) : Prop := INT_MIN <= z <= INT_MAX.

(** ** defs.h: data *)

Abbreviation loc := nat.
Abbreviation ptr := (option nat).

Record Resource := mkResource {
  name : string;
  amount : Z;
  max_capacity : Z
}.

Record Recipe := mkRecipe {
  input : ptr;
  output : ptr;
  input_amount : Z;
  output_amount : Z;
  processing_time : Z
}.

(** The [global_queue] field points to the one queue of the manager, which
    is a component of the state below. *)
Record System := mkSystem {
  sys_name : string;
  recipe : Recipe;
  mode : Z
}.

Record Event := mkEvent {
  system : ptr;
  resource : ptr;
  status : Z;
  priority : Z
}.

(** The chain of [EventNode]s from [head], in order. *)
Definition EventQueue := list Event.

(** ** event.c *)

Definition event_init (system resource : ptr) (status : Z) : Event :=
  {| system := system;
     resource := resource;
     status := status;
     priority := Z.land status 0xFF00 |}.

Definition event_queue_init : EventQueue := [].

(** The [while] loop of [event_queue_push] and the insertion that follows
    it: [current] walks past every node whose priority is at least the new
    event's, and the new node is linked in front of the first node of lower
    priority, or at the end. *)
Fixpoint push_walk (current : list Event) (event : Event) : list Event :=
  match current with
  | [] => [event]
  | c :: next =>
      if priority c >=? priority event
      then c :: push_walk next event
      else event :: c :: next
  end.

Definition event_queue_push (queue : EventQueue) (event : Event) : EventQueue :=
  match queue with
  | [] => [event]
  | _ :: _ => push_walk queue event
  end.

(** [event_queue_pop queue event] gives the returned [int], the queue and
    the contents of the out-parameter [event] afterwards. *)
Definition event_queue_pop (queue : EventQueue) (event : Event)
  : Z * EventQueue * Event :=
  match queue with
  | [] => (0, queue, event)
  | head_node :: next => (1, next, head_node)
  end.

(** *** Runs of the queue *)

Inductive QueueOp :=
| Push (e : Event)
| Pop.

(** One call on the queue; a pop records the returned [int] and the
    out-parameter. *)
Definition queue_step (st : EventQueue * Event) (op : QueueOp)
  : (EventQueue * Event) * list (Z * Event) :=
  match op with
  | Push e => ((event_queue_push (fst st) e, snd st), [])
  | Pop =>
      let '(r, q, ev) := event_queue_pop (fst st) (snd st) in
      ((q, ev), [(r, ev)])
  end.

Fixpoint queue_run (ops : list QueueOp) (st : EventQueue * Event)
  : (EventQueue * Event) * list (Z * Event) :=
  match ops with
  | [] => (st, [])
  | op :: ops' =>
      let '(st1, o1) := queue_step st op in
      let '(st2, o2) := queue_run ops' st1 in
      (st2, o1 ++ o2)
  end.

(** What the caller of a pop sees: nothing when it returned 0, the event
    copied out otherwise. *)
Definition popped (r : Z * Event) : option Event :=
  if fst r =? 0 then None else Some (snd r).

(** *** The ordering contract, as the specification words it

    The enqueued events are kept in the order they were pushed.  A pop
    takes the earliest event that no enqueued event outranks. *)
Module QueueSpec.

Definition push (pending : list Event) (e : Event) : list Event :=
  pending ++ [e].

Definition top (pending : list Event) (e : Event) : bool :=
  forallb (fun x => priority x <=? priority e) pending.

Fixpoint extract (f : Event -> bool) (pending : list Event)
  : option (Event * list Event) :=
  match pending with
  | [] => None
  | e :: rest =>
      if f e then Some (e, rest)
      else match extract f rest with
           | Some (x, rest') => Some (x, e :: rest')
           | None => None
           end
  end.

Definition pop (pending : list Event) : option (Event * list Event) :=
  extract (top pending) pending.

Fixpoint run (ops : list QueueOp) (pending : list Event)
  : list Event * list (option Event) :=
  match ops with
  | [] => (pending, [])
  | Push e :: ops' => run ops' (push pending e)
  | Pop :: ops' =>
      match pop pending with
      | Some (x, pending') =>
          let '(p, o) := run ops' pending' in (p, Some x :: o)
      | None =>
          let '(p, o) := run ops' pending in (p, None :: o)
      end
  end.

End QueueSpec.

(** ** resource.c *)

Definition resource_create (name : string) (amount max_capacity : Z) : Resource :=
  {| name := name; amount := amount; max_capacity := max_capacity |}.

(** [resource_transfer_into resource amt] gives the resource and the contents
    of the in-out parameter [*amount] afterwards. *)
Definition resource_transfer_into (resource : Resource) (amt : Z) : Resource * Z :=
  let remaining_capacity := int_sub (max_capacity resource) (amount resource) in
  let amount_to_transfer :=
    if remaining_capacity >=? amt then amt else remaining_capacity in
  ({| name := name resource;
      amount := int_add (amount resource) amount_to_transfer;
      max_capacity := max_capacity resource |},
   int_sub amt amount_to_transfer).

Definition resource_transfer_from (resource : Resource) (amt : Z) : Resource * Z :=
  let amount_to_transfer :=
    if amount resource <? amt then amount resource else amt in
  ({| name := name resource;
      amount := int_sub (amount resource) amount_to_transfer;
      max_capacity := max_capacity resource |},
   int_sub amt amount_to_transfer).

Definition recipe_init (input output : ptr)
  (input_amount output_amount processing_time : Z) : Recipe :=
  {| input := input; output := output;
     input_amount := input_amount; output_amount := output_amount;
     processing_time := processing_time |}.

(** ** Trace, state and outcomes *)

(** What the program writes or waits for, in order.  [Out_usleep] carries
    the [int] that the code computes as the argument of [usleep], before
    its conversion to the unsigned [useconds_t]; the texts are those
    printed, without colour escapes and without the final newline. *)
Inductive Output :=
| Out_display_state
| Out_display_event (sysname resname status_str : string)
| Out_display_finish_sim
| Out_printf (text : string)
| Out_usleep (usec : Z).

(** The [Manager] structure with the memory its pointers lead to. *)
Record State := mkState {
  resource_heap : gmap nat Resource;
  system_heap : gmap nat System;
  simulation_running : Z;
  system_array : list nat;
  resources : list nat;
  event_queue : EventQueue;
  trace : list Output
}.

(** The outcome of a run.  A run that dereferences an invalid pointer, or
    that is cut short by its fuel, stops in the state it had reached. *)
Inductive result (A : Type) : Type :=
| Done (a : A)
| Crash (st : State)
| OutOfFuel (st : State).

Arguments Done {A} a.
Arguments Crash {A} st.
Arguments OutOfFuel {A} st.

#[global] Instance result_ret : MRet result := fun A a => Done a.

#[global] Instance result_bind : MBind result := fun A B k r =>
  match r with
  | Done a => k a
  | Crash st => Crash st
  | OutOfFuel st => OutOfFuel st
  end.

(** The state a run stops in. *)
Definition final {A : Type} (f : A -> State) (r : result A) : State :=
  match r with
  | Done a => f a
  | Crash st => st
  | OutOfFuel st => st
  end.

Definition set_resource_heap (h : gmap nat Resource) (st : State) : State :=
  mkState h (system_heap st) (simulation_running st) (system_array st)
          (resources st) (event_queue st) (trace st).

Definition set_system_heap (h : gmap nat System) (st : State) : State :=
  mkState (resource_heap st) h (simulation_running st) (system_array st)
          (resources st) (event_queue st) (trace st).

Definition set_simulation_running (v : Z) (st : State) : State :=
  mkState (resource_heap st) (system_heap st) v (system_array st)
          (resources st) (event_queue st) (trace st).

Definition set_event_queue (q : EventQueue) (st : State) : State :=
  mkState (resource_heap st) (system_heap st) (simulation_running st)
          (system_array st) (resources st) q (trace st).

Definition emit (o : Output) (st : State) : State :=
  mkState (resource_heap st) (system_heap st) (simulation_running st)
          (system_array st) (resources st) (event_queue st) (trace st ++ [o]).

Definition deref_resource (st : State) (p : ptr) : result Resource :=
  match p with
  | None => Crash st
  | Some l => match resource_heap st !! l with
              | Some r => Done r
              | None => Crash st
              end
  end.

Definition deref_system (st : State) (p : ptr) : result System :=
  match p with
  | None => Crash st
  | Some l => match system_heap st !! l with
              | Some s => Done s
              | None => Crash st
              end
  end.

(** The transfers through a pointer, on the heap. *)
Definition transfer_into_at (st : State) (p : ptr) (amt : Z) : result (State * Z) :=
  match p with
  | None => Crash st
  | Some l =>
      r ← deref_resource st p;
      let '(r', amt') := resource_transfer_into r amt in
      Done (set_resource_heap (<[l := r']> (resource_heap st)) st, amt')
  end.

Definition transfer_from_at (st : State) (p : ptr) (amt : Z) : result (State * Z) :=
  match p with
  | None => Crash st
  | Some l =>
      r ← deref_resource st p;
      let '(r', amt') := resource_transfer_from r amt in
      Done (set_resource_heap (<[l := r']> (resource_heap st)) st, amt')
  end.

(** [event_queue_push(system->global_queue, event)] *)
Definition push_event (event : Event) (st : State) : State :=
  set_event_queue (event_queue_push (event_queue st) event) st.

(** ** system.c *)

Definition system_create (name : string) (recipe : Recipe) : System :=
  {| sys_name := name; recipe := recipe; mode := MODE_STANDARD |}.

Definition system_get_mode (st : State) (system : loc) : result Z :=
  s ← deref_system st (Some system); Done (mode s).

Definition system_set_mode (st : State) (system : loc) (m : Z) : result State :=
  s ← deref_system st (Some system);
  Done (set_system_heap
          (<[system := {| sys_name := sys_name s; recipe := recipe s; mode := m |}]>
             (system_heap st)) st).

(** [usleep(PARAM_SYSTEM_WAIT * 1000 / PARAM_SPEED_MODIFIER)] *)
Definition system_wait : Output :=
  Out_usleep (int_div (int_mul PARAM_SYSTEM_WAIT 1000) PARAM_SPEED_MODIFIER).

(** The [switch] of [system_simulate_process_time]. *)
Definition adjusted_processing_time (s : System) : Z :=
  if mode s =? MODE_SLOW then int_mul (processing_time (recipe s)) 4
  else if mode s =? MODE_FAST then int_div (processing_time (recipe s)) 4
  else processing_time (recipe s).

Definition system_simulate_process_time (st : State) (system : loc) : result State :=
  s ← deref_system st (Some system);
  Done (emit (Out_usleep (int_div (int_mul (adjusted_processing_time s) 1000)
                                  PARAM_SPEED_MODIFIER)) st).

Definition report_recipe_thresholds (st : State) (system : loc) : result State :=
  s ← deref_system st (Some system);
  match input (recipe s) with
  | None => Done st
  | Some _ =>
      let low_threshold := int_mul (input_amount (recipe s)) PARAM_RESOURCE_LOW in
      let high_threshold := int_mul (input_amount (recipe s)) PARAM_RESOURCE_HIGH in
      r ← deref_resource st (input (recipe s));
      let current_amount := amount r in
      if current_amount <=? low_threshold then
        Done (push_event (event_init (Some system) (input (recipe s)) EVENT_LOW) st)
      else if current_amount >? high_threshold then
        Done (push_event (event_init (Some system) (input (recipe s)) EVENT_HIGH) st)
      else Done st
  end.

(** The first [while] loop of [system_run].  The result is the state with
    [Some amount_to_pull] when the loop is left by its condition, and with
    [None] when [system_run] returns from inside it. *)
Fixpoint pull_loop (fuel : nat) (system : loc) (amount_to_pull : Z) (st : State)
  : result (State * option Z) :=
  match fuel with
  | O => OutOfFuel st
  | S fuel' =>
      if amount_to_pull >? 0 then
        m ← system_get_mode st system;
        if negb (m =? MODE_TERMINATE) then
          s ← deref_system st (Some system);
          '(st1, amount_to_pull') ← transfer_from_at st (input (recipe s)) amount_to_pull;
          if amount_to_pull' >? 0 then
            let event :=
              event_init (Some system) (input (recipe s)) EVENT_INSUFFICIENT in
            let st2 := emit system_wait (push_event event st1) in
            if negb (SINGLE_THREAD_MODE =? 0) then Done (st2, None)
            else pull_loop fuel' system amount_to_pull' st2
          else pull_loop fuel' system amount_to_pull' st1
        else Done (st, Some amount_to_pull)
      else Done (st, Some amount_to_pull)
  end.

(** The processing step: [if (amount_to_pull == 0) { ... }].  The result
    carries [local_output_amount]. *)
Definition process_step (system : loc) (amount_to_pull : Z) (st : State)
  : result (State * Z) :=
  if amount_to_pull =? 0 then
    st1 ← system_simulate_process_time st system;
    s ← deref_system st1 (Some system);
    let local_output_amount := output_amount (recipe s) in
    let event := event_init (Some system) (input (recipe s)) EVENT_PRODUCED in
    Done (push_event event st1, local_output_amount)
  else Done (st, 0).

(** The second [while] loop of [system_run]; [false] in the result when
    [system_run] returns from inside it. *)
Fixpoint push_loop (fuel : nat) (system : loc) (local_output_amount : Z) (st : State)
  : result (State * bool) :=
  match fuel with
  | O => OutOfFuel st
  | S fuel' =>
      s ← deref_system st (Some system);
      match output (recipe s) with
      | None => Done (st, true)
      | Some _ =>
          if local_output_amount >? 0 then
            m ← system_get_mode st system;
            if negb (m =? MODE_TERMINATE) then
              '(st1, local_output_amount') ← transfer_into_at st (output (recipe s)) local_output_amount;
              if local_output_amount' >? 0 then
                let event :=
                  event_init (Some system) (output (recipe s)) EVENT_CAPACITY in
                let st2 := emit system_wait (push_event event st1) in
                if negb (SINGLE_THREAD_MODE =? 0) then Done (st2, false)
                else push_loop fuel' system local_output_amount' st2
              else push_loop fuel' system local_output_amount' st1
            else Done (st, true)
          else Done (st, true)
      end
  end.

Definition system_run (fuel : nat) (system : loc) (st : State) : result State :=
  s ← deref_system st (Some system);
  let amount_to_pull := input_amount (recipe s) in
  '(st1, pulled) ← pull_loop fuel system amount_to_pull st;
  match pulled with
  | None => Done st1
  | Some amount_to_pull' =>
      '(st2, local_output_amount) ← process_step system amount_to_pull' st1;
      '(st3, fell_through) ← push_loop fuel system local_output_amount st2;
      if fell_through : bool then report_recipe_thresholds st3 system else Done st3
  end.

(** The loop of [system_thread]. *)
Fixpoint system_thread_loop (fuel : nat) (system : loc) (st : State) : result State :=
  match fuel with
  | O => OutOfFuel st
  | S fuel' =>
      m ← system_get_mode st system;
      if negb (m =? MODE_TERMINATE) then
        st1 ← system_run fuel' system st;
        system_thread_loop fuel' system (emit system_wait st1)
      else Done st
  end.

Definition system_thread (fuel : nat) (arg : ptr) (st : State) : result State :=
  match arg with
  | None => Done (emit (Out_printf "Error: NULL system passed to system_thread") st)
  | Some system => system_thread_loop fuel system st
  end.

(** ** display.c, as far as the manager calls it *)

Definition display_get_event_str (event : Event) : string :=
  if status event =? EVENT_LOW then "LOW"
  else if status event =? EVENT_INSUFFICIENT then "INSUFFICIENT"
  else if status event =? EVENT_CAPACITY then "CAPACITY"
  else if status event =? EVENT_HIGH then "HIGH"
  else if status event =? EVENT_PRODUCED then "PRODUCED"
  else "UNKNOWN".

(** [display_event] prints the names behind both pointers of the event. *)
Definition display_event (st : State) (event : Event) : result State :=
  s ← deref_system st (system event);
  r ← deref_resource st (resource event);
  Done (emit (Out_display_event (sys_name s) (name r) (display_get_event_str event)) st).

Definition display_simulation_state (st : State) : State :=
  emit Out_display_state st.

Definition display_finish_sim (st : State) : State :=
  emit Out_display_finish_sim st.

(** ** manager.c *)

Definition manager_init (st : State) : State :=
  mkState (resource_heap st) (system_heap st) 1 [] [] event_queue_init (trace st).

(** [usleep(PARAM_MANAGER_WAIT * 1000 / PARAM_SPEED_MODIFIER)] *)
Definition manager_wait : Output :=
  Out_usleep (int_div (int_mul PARAM_MANAGER_WAIT 1000) PARAM_SPEED_MODIFIER).

(** [event.status == status && strcmp(event.resource->name, text) == 0]:
    the name is read only when the status matches. *)
Definition status_and_name (st : State) (event : Event) (st_code : Z) (text : string)
  : result bool :=
  if status event =? st_code then
    r ← deref_resource st (resource event);
    Done (String.eqb (name r) text)
  else Done false.

(** The [for] loop of [manager_run] over [system_array]. *)
Fixpoint update_systems (m : Z) (event : Event) (systems : list nat) (st : State)
  : result State :=
  match systems with
  | [] => Done st
  | sys :: rest =>
      cur ← system_get_mode st sys;
      if cur =? MODE_TERMINATE then update_systems m event rest st
      else
        s ← deref_system st (Some sys);
        if (m =? MODE_TERMINATE) || bool_decide (output (recipe s) = resource event)
        then st1 ← system_set_mode st sys m; update_systems m event rest st1
        else update_systems m event rest st
  end.

(** The body of the [while] loop of [manager_run], for the event that was
    just popped. *)
Definition manager_run_body (event : Event) (st : State) : result State :=
  s0 ← deref_system st (system event);
  let st := emit (Out_printf ("Manager: Event popped " +:+ sys_name s0)) st in
  if priority event =? PRIORITY_IGN then Done st
  else
    st ← display_event st event;
    no_oxygen_flag ← status_and_name st event EVENT_INSUFFICIENT "Oxygen";
    distance_reached_flag ← status_and_name st event EVENT_CAPACITY "Distance";
    let need_more_flag :=
      (status event =? EVENT_LOW) || (status event =? EVENT_INSUFFICIENT) in
    let need_less_flag :=
      (status event =? EVENT_CAPACITY) || (status event =? EVENT_HIGH) in
    let '(m, st) :=
      if no_oxygen_flag : bool then
        (MODE_TERMINATE,
         set_simulation_running 0
           (emit (Out_printf "Oxygen depleted. Terminating all systems.")
                 (display_finish_sim st)))
      else if distance_reached_flag : bool then
        (MODE_TERMINATE,
         set_simulation_running 0
           (emit (Out_printf "Destination reached. Terminating all systems.")
                 (display_finish_sim st)))
      else if need_more_flag then (MODE_FAST, st)
      else if need_less_flag then (MODE_SLOW, st)
      else (MODE_STANDARD, st) in
    st ← update_systems m event (system_array st) st;
    Done (emit manager_wait st).

(** The [while] loop of [manager_run]; [event] is the local variable that
    [event_queue_pop] fills. *)
Fixpoint manager_run_loop (fuel : nat) (event : Event) (st : State) : result State :=
  match fuel with
  | O => OutOfFuel st
  | S fuel' =>
      if simulation_running st =? 0 then Done st
      else
        let '(r, q, event') := event_queue_pop (event_queue st) event in
        if r =? 0 then Done st
        else
          st1 ← manager_run_body event' (set_event_queue q st);
          manager_run_loop fuel' event' st1
  end.

Definition manager_run (fuel : nat) (st : State) : result State :=
  manager_run_loop fuel (mkEvent None None 0 0) (display_simulation_state st).

(** ** manager.c: the manager's thread *)

Fixpoint manager_thread_loop (fuel : nat) (st : State) : result State :=
  match fuel with
  | O => OutOfFuel st
  | S fuel' =>
      if simulation_running st =? 0 then Done st
      else
        st1 ← manager_run fuel' st;
        manager_thread_loop fuel' (emit manager_wait st1)
  end.

Definition manager_thread (fuel : nat) (st : State) : result State :=
  st1 ← manager_thread_loop fuel (emit (Out_printf "Manager thread started") st);
  Done (emit (Out_printf "Manager thread ended") st1).

(** ** The manager's decision, in the words of the specification *)

Definition with_mode (m : Z) (s : System) : System :=
  {| sys_name := sys_name s; recipe := recipe s; mode := m |}.

(** Termination condition A or B: Insufficient for the resource named
    "Oxygen", or Capacity for the resource named "Distance". *)
Definition terminates (event : Event) (r : Resource) : Prop :=
  (status event = EVENT_INSUFFICIENT /\ name r = "Oxygen"%string) \/
  (status event = EVENT_CAPACITY /\ name r = "Distance"%string).

(** Fast for Low or Insufficient, Slow for Capacity or High, Standard for
    anything else. *)
Definition target_mode (event : Event) : Z :=
  if (status event =? EVENT_LOW) || (status event =? EVENT_INSUFFICIENT)
  then MODE_FAST
  else if (status event =? EVENT_CAPACITY) || (status event =? EVENT_HIGH)
  then MODE_SLOW
  else MODE_STANDARD.

(** The system at [l] is one the manager assigns mode [m] to: it is in the
    array, not in [MODE_TERMINATE], and either the assignment is the
    termination or its output is the resource of the event. *)
Definition reacts (systems : list nat) (m : Z) (event : Event) (l : nat) (s : System)
  : Prop :=
  In l systems /\ mode s <> MODE_TERMINATE /\
  (m = MODE_TERMINATE \/ output (recipe s) = resource event).

(** The systems of [h'] are those of [h], with mode [m] for the ones that
    react and nothing else changed. *)
Definition modes_assigned (systems : list nat) (m : Z) (event : Event)
  (h h' : gmap nat System) : Prop :=
  forall l,
    match h !! l with
    | None => h' !! l = None
    | Some s =>
        (reacts systems m event l s -> h' !! l = Some (with_mode m s)) /\
        (~ reacts systems m event l s -> h' !! l = Some s)
    end.

(** ** main.c: the scenario of [load_data] *)

Definition fuel_loc : nat := 0%nat.
Definition oxygen_loc : nat := 1%nat.
Definition energy_loc : nat := 2%nat.
Definition distance_loc : nat := 3%nat.

Definition propulsion_loc : nat := 0%nat.
Definition life_support_loc : nat := 1%nat.
Definition crew_loc : nat := 2%nat.
Definition generator_loc : nat := 3%nat.

Definition load_data (st : State) : State :=
  let fuel := resource_create "Fuel" 1000 1000 in
  let oxygen := resource_create "Oxygen" 20 50 in
  let energy := resource_create "Energy" 30 50 in
  let distance := resource_create "Distance" 0 1000 in
  let propulsion_recipe := recipe_init (Some fuel_loc) (Some distance_loc) 5 25 500 in
  let life_support_recipe := recipe_init (Some energy_loc) (Some oxygen_loc) 10 5 100 in
  let crew_capsule_recipe := recipe_init (Some oxygen_loc) None 5 0 200 in
  let generator_recipe := recipe_init (Some fuel_loc) (Some energy_loc) 10 9 200 in
  mkState
    (<[distance_loc := distance]>
       (<[energy_loc := energy]>
          (<[oxygen_loc := oxygen]> (<[fuel_loc := fuel]> (resource_heap st)))))
    (<[generator_loc := system_create "Generator" generator_recipe]>
       (<[crew_loc := system_create "Crew" crew_capsule_recipe]>
          (<[life_support_loc := system_create "Life Support" life_support_recipe]>
             (<[propulsion_loc := system_create "Propulsion" propulsion_recipe]>
                (system_heap st)))))
    (simulation_running st)
    (system_array st ++ [propulsion_loc; life_support_loc; crew_loc; generator_loc])
    (resources st ++ [fuel_loc; oxygen_loc; energy_loc; distance_loc])
    (event_queue st)
    (trace st).

Definition empty_state : State := mkState ∅ ∅ 0 [] [] [] [].

(** The state [main] starts its threads in. *)
Definition initial_state : State := load_data (manager_init empty_state).

(** ** Predicates used in the statements and proofs *)

(** Priorities never increase along the queue. *)
Fixpoint descending (q : list Event) : Prop :=
  match q with
  | [] => True
  | x :: t => Forall (fun y => priority y <= priority x) t /\ descending t
  end.

(** The events of priority [k], in the order of the list. *)
Definition at_priority (k : Z) (l : list Event) : list Event :=
  List.filter (fun e => priority e =? k) l.

(** The linked list [q] holds the pending events [p]: it is ordered by
    priority, and at each priority it has the events of [p] in their
    order of arrival. *)
Definition holds (q p : list Event) : Prop :=
  descending q /\ forall k, at_priority k q = at_priority k p.

(** The resource invariant. *)
Definition resource_ok (r : Resource) : Prop :=
  0 <= amount r <= max_capacity r /\ in_int (max_capacity r).

(** One transfer on the heap of resources. *)
Inductive transfer_step (h : gmap nat Resource) : gmap nat Resource -> Prop :=
| step_into l r req :
    h !! l = Some r -> 0 <= req ->
    transfer_step h (<[l := fst (resource_transfer_into r req)]> h)
| step_from l r req :
    h !! l = Some r -> 0 <= req ->
    transfer_step h (<[l := fst (resource_transfer_from r req)]> h).

(** Every resource of the heap satisfies the invariant. *)
Definition heap_ok (h : gmap nat Resource) : Prop :=
  forall l r, h !! l = Some r -> resource_ok r.

(** [R] relates the state a run starts in to the state it stops in,
    whatever its outcome. *)
Definition stops {A : Type} (R : State -> State -> Prop) (f : A -> State)
  (st : State) (r : result A) : Prop :=
  R st (final f r).

(** The amounts changed by transfers only. *)
Definition by_transfers (st st' : State) : Prop :=
  rtc transfer_step (resource_heap st) (resource_heap st').

Definition same_resources (st st' : State) : Prop :=
  resource_heap st' = resource_heap st.

Definition same_systems (st st' : State) : Prop :=
  system_heap st' = system_heap st.

(** A system in [MODE_TERMINATE] is still there, unchanged. *)
Definition terminated_kept (st st' : State) : Prop :=
  forall l s, system_heap st !! l = Some s -> mode s = MODE_TERMINATE ->
              system_heap st' !! l = Some s.

(** What a system's run may change: amounts, by transfers; never a
    system. *)
Definition system_frame (st st' : State) : Prop :=
  by_transfers st st' /\ same_systems st st'.

(** What the manager's run may change: no resource, and no system that is
    in [MODE_TERMINATE]; and it adds nothing to the queue. *)
Definition manager_frame (st st' : State) : Prop :=
  same_resources st st' /\ terminated_kept st st' /\
  (length (event_queue st') <= length (event_queue st))%nat.

(** The run was not cut short by its fuel. *)
Definition fuel_free {A : Type} (r : result A) : Prop :=
  forall st, r <> OutOfFuel st.

(** The scenario after the crew has run out of oxygen: the manager has
    handled the Insufficient event for Oxygen. *)
Definition oxygen_depleted_state : State :=
  final id
    (manager_run 2
       (push_event (event_init (Some crew_loc) (Some oxygen_loc) EVENT_INSUFFICIENT)
          initial_state)).

(** The scenario with one more system, a producer that has no input:
    [recipe_init(&r, NULL, energy, 5, 9, 100)]. *)
Definition solar_loc : nat := 4%nat.

Definition solar_state : State :=
  mkState (resource_heap initial_state)
    (<[solar_loc := system_create "Solar" (recipe_init None (Some energy_loc) 5 9 100)]>
       (system_heap initial_state))
    (simulation_running initial_state)
    (system_array initial_state ++ [solar_loc])
    (resources initial_state)
    (event_queue initial_state)
    (trace initial_state).


(** The scenario with one more system whose input and output are the
    same resource: [recipe_init(&r, fuel, fuel, 5, 3, 100)]. *)
Definition filter_loc : nat := 4%nat.

Definition filter_state : State :=
  mkState (resource_heap initial_state)
    (<[filter_loc := system_create "Filter"
                       (recipe_init (Some fuel_loc) (Some fuel_loc) 5 3 100)]>
       (system_heap initial_state))
    (simulation_running initial_state)
    (system_array initial_state ++ [filter_loc])
    (resources initial_state)
    (event_queue initial_state)
    (trace initial_state).

(** The cycle of [system_run] gets to its processing step: the first loop
    is left with [amount_to_pull == 0]. *)
Definition reaches_processing (fuel : nat) (system : nat) (st : State) : Prop :=
  exists s st1,
    system_heap st !! system = Some s /\
    pull_loop fuel system (input_amount (recipe s)) st = Done (st1, Some 0).

(** The events that the code of the system at [l], with record [s],
    builds: one per call of [event_init] in system.c. *)
Definition emitted_by (l : nat) (s : System) (e : Event) : Prop :=
  e = event_init (Some l) (input (recipe s)) EVENT_INSUFFICIENT \/
  e = event_init (Some l) (input (recipe s)) EVENT_PRODUCED \/
  e = event_init (Some l) (output (recipe s)) EVENT_CAPACITY \/
  e = event_init (Some l) (input (recipe s)) EVENT_LOW \/
  e = event_init (Some l) (input (recipe s)) EVENT_HIGH.

(** From [st] to [st'] the system at [l] stayed [s], the queue lost no
    event, and each event it gained is one that this system builds. *)
Definition emits (l : nat) (s : System) (st st' : State) : Prop :=
  system_heap st !! l = Some s ->
  system_heap st' !! l = Some s /\
  (forall e, In e (event_queue st) -> In e (event_queue st')) /\
  (forall e, In e (event_queue st') -> In e (event_queue st) \/ emitted_by l s e).

(** ** system.c and resource.c: the arrays of pointers

    [SystemArray] and [SharedResourceArray] have the same three fields,
    and their functions the same text with [System] for [Resource].  An
    allocated block is the list of its slots; a slot that was never
    written holds [None].  The functions give [None] when an [assert]
    fails, when they read or write outside the block, when they use a
    slot that was never written, or when they free what is not
    allocated. *)
Record PtrArray := mkPtrArray {
  arr_items : option (list (option nat));
  arr_size : Z;
  arr_capacity : Z
}.

Definition array_init : PtrArray :=
  {| arr_items := Some (replicate 10 None); arr_size := 0; arr_capacity := 10 |}.

(** [for (i ...; i < size; i++) new[i] = old[i];] with [count] iterations
    left. *)
Fixpoint array_copy (count i : nat) (old : option (list (option nat)))
  (new : list (option nat)) : option (list (option nat)) :=
  match count with
  | O => Some new
  | S count' =>
      match old with
      | None => None
      | Some block =>
          match block !! i with
          | None => None
          | Some v =>
              if decide (i < length new)%nat
              then array_copy count' (S i) old (<[i := v]> new)
              else None
          end
      end
  end.

(** [array->items[i] = v] *)
Definition array_write (block : option (list (option nat))) (i : Z) (v : nat)
  : option (list (option nat)) :=
  match block with
  | None => None
  | Some b =>
      if (0 <=? i) && (i <? Z.of_nat (length b))
      then Some (<[Z.to_nat i := Some v]> b)
      else None
  end.

Definition array_add (array : PtrArray) (p : ptr) : option PtrArray :=
  match p with
  | None => None
  | Some v =>
      '(block, cap) ←
        (if arr_size array >=? arr_capacity array then
           let new_capacity := int_mul (arr_capacity array) 2 in
           if new_capacity <? 0 then None
           else
             new_block ← array_copy (Z.to_nat (arr_size array)) 0 (arr_items array)
                         (replicate (Z.to_nat new_capacity) None);
             Some (Some new_block, new_capacity)
         else Some (arr_items array, arr_capacity array));
      block' ← array_write block (arr_size array) v;
      Some {| arr_items := Some block';
              arr_size := int_add (arr_size array) 1;
              arr_capacity := cap |}
  end.

(** The loop of the two clean functions: each entry is destroyed, that
    is, freed from the heap. *)
Fixpoint array_destroy_loop {V : Type} (count i : nat)
  (block : option (list (option nat))) (heap : gmap nat V) : option (gmap nat V) :=
  match count with
  | O => Some heap
  | S count' =>
      match block with
      | None => None
      | Some b =>
          match b !! i with
          | Some (Some l) =>
              match heap !! l with
              | Some _ => array_destroy_loop count' (S i) block (delete l heap)
              | None => None
              end
          | _ => None
          end
      end
  end.

Definition array_clean {V : Type} (array : PtrArray) (heap : gmap nat V)
  : option (PtrArray * gmap nat V) :=
  heap' ← array_destroy_loop (Z.to_nat (arr_size array)) 0 (arr_items array) heap;
  Some ({| arr_items := None; arr_size := 0; arr_capacity := 0 |}, heap').

Definition system_array_init : PtrArray := array_init.
Definition system_array_add (array : PtrArray) (system : ptr) : option PtrArray :=
  array_add array system.
Definition system_array_clean (array : PtrArray) (heap : gmap nat System)
  : option (PtrArray * gmap nat System) :=
  array_clean array heap.

Definition storage_init : PtrArray := array_init.
Definition storage_add (storage : PtrArray) (resource : ptr) : option PtrArray :=
  array_add storage resource.
Definition storage_clean (array : PtrArray) (heap : gmap nat Resource)
  : option (PtrArray * gmap nat Resource) :=
  array_clean array heap.

(** The array holds the pointers [xs], in this order, in its first
    [size] slots. *)
Definition array_holds (a : PtrArray) (xs : list nat) : Prop :=
  exists block,
    arr_items a = Some block /\
    Z.of_nat (length block) = arr_capacity a /\
    arr_size a = Z.of_nat (length xs) /\
    arr_size a <= arr_capacity a /\
    0 < arr_capacity a /\
    forall i x, xs !! i = Some x -> block !! i = Some (Some x).

(** One add after the other, as [load_data] does. *)
Fixpoint array_add_all (a : PtrArray) (xs : list nat) : option PtrArray :=
  match xs with
  | [] => Some a
  | x :: rest => a' ← array_add a (Some x); array_add_all a' rest
  end.

(** Freeing the objects at [xs] one after the other. *)
Fixpoint free_all {V : Type} (xs : list nat) (heap : gmap nat V) : option (gmap nat V) :=
  match xs with
  | [] => Some heap
  | x :: rest =>
      match heap !! x with
      | Some _ => free_all rest (delete x heap)
      | None => None
      end
  end.

(** An array after four adds, of the pointers 0 to 3, as [load_data]
    leaves both arrays of the manager. *)
Definition loaded_array : PtrArray :=
  {| arr_items := Some ([Some 0; Some 1; Some 2; Some 3]%nat ++ replicate 6 None);
     arr_size := 4;
     arr_capacity := 10 |}.

(** If the queue was in order of priority, it still is. *)
Definition queue_order_kept (st st' : State) : Prop :=
  descending (event_queue st) -> descending (event_queue st').

(** Everything but the resources, the queue and the trace is as it was. *)
Definition control_kept (st st' : State) : Prop :=
  system_heap st' = system_heap st /\
  simulation_running st' = simulation_running st /\
  system_array st' = system_array st /\
  resources st' = resources st.

(** The modes that [manager_run] assigns. *)
Definition assigned_mode (m : Z) : Prop :=
  m = MODE_TERMINATE \/ m = MODE_SLOW \/ m = MODE_STANDARD \/ m = MODE_FAST.

(** The systems are the same objects, with their names and recipes; a
    mode is either as it was or one that [manager_run] assigns. *)
Definition systems_remodeled (st st' : State) : Prop :=
  forall l,
    match system_heap st !! l, system_heap st' !! l with
    | Some s, Some s' =>
        sys_name s' = sys_name s /\ recipe s' = recipe s /\
        (mode s' = mode s \/ assigned_mode (mode s'))
    | None, None => True
    | _, _ => False
    end.




(** * Properties *)

(** ** Event queue *)

Lemma event_queue_push_walk q e : event_queue_push q e = push_walk q e.
Proof. destruct q; reflexivity. Qed.

Lemma at_priority_app k l1 l2 :
  at_priority k (l1 ++ l2) = at_priority k l1 ++ at_priority k l2.
Proof. apply List.filter_app. Qed.

Lemma at_priority_cons k x l :
  at_priority k (x :: l) =
  if priority x =? k then x :: at_priority k l else at_priority k l.
Proof. reflexivity. Qed.

Lemma at_priority_none k l :
  Forall (fun x => priority x <> k) l -> at_priority k l = [].
Proof.
  induction 1 as [|x l Hx _ IH]; [reflexivity|].
  rewrite at_priority_cons, IH.
  destruct (Z.eqb_spec (priority x) k); [contradiction|reflexivity].
Qed.

Lemma in_at_priority e l : In e l <-> In e (at_priority (priority e) l).
Proof.
  unfold at_priority. rewrite List.filter_In, Z.eqb_refl. tauto.
Qed.

Lemma holds_In q p e : holds q p -> (In e q <-> In e p).
Proof.
  intros [_ H]. rewrite (in_at_priority e q), (in_at_priority e p), H. tauto.
Qed.

Lemma push_walk_In q e x : In x (push_walk q e) <-> x = e \/ In x q.
Proof.
  induction q as [|c next IH]; simpl.
  - intuition congruence.
  - destruct (priority c >=? priority e); simpl; rewrite ?IH; intuition congruence.
Qed.

Lemma push_walk_descending q e : descending q -> descending (push_walk q e).
Proof.
  induction q as [|c next IH]; simpl.
  - intros _. split; [constructor | exact I].
  - intros [Hc Hnext].
    destruct (Z.geb_spec (priority c) (priority e)) as [Hge|Hlt]; simpl.
    + split; [|auto].
      apply Forall_forall. intros x Hx.
      apply list_elem_of_In, push_walk_In in Hx. destruct Hx as [->|Hx]; [lia|].
      rewrite Forall_forall in Hc. apply Hc, list_elem_of_In, Hx.
    + split; [|split; assumption].
      constructor; [lia|].
      eapply Forall_impl; [exact Hc|]. simpl. intros; lia.
Qed.

Lemma push_walk_at_priority k q e :
  descending q ->
  at_priority k (push_walk q e) = at_priority k (q ++ [e]).
Proof.
  induction q as [|c next IH]; [reflexivity|].
  intros [Hc Hnext]. simpl push_walk.
  destruct (Z.geb_spec (priority c) (priority e)) as [Hge|Hlt].
  - simpl app. rewrite !at_priority_cons, IH by assumption. reflexivity.
  - rewrite at_priority_app.
    rewrite (at_priority_cons k e), (at_priority_cons k e []).
    destruct (Z.eqb_spec (priority e) k) as [Hk|Hk].
    + rewrite at_priority_none; [reflexivity|].
      constructor; [lia|].
      eapply Forall_impl; [exact Hc|]. simpl. intros; lia.
    + simpl. rewrite app_nil_r. reflexivity.
Qed.

Lemma holds_push q p e :
  holds q p -> holds (event_queue_push q e) (QueueSpec.push p e).
Proof.
  intros [Hd Hf]. rewrite event_queue_push_walk. split.
  - apply push_walk_descending, Hd.
  - intros k. rewrite push_walk_at_priority by assumption.
    unfold QueueSpec.push. rewrite !at_priority_app, Hf. reflexivity.
Qed.

Lemma holds_nil p : holds [] p -> p = [].
Proof.
  intros H. destruct p as [|e p]; [reflexivity|].
  exfalso. apply (holds_In [] (e :: p) e H). left; reflexivity.
Qed.

Lemma extract_None f p :
  QueueSpec.extract f p = None -> Forall (fun x => f x = false) p.
Proof.
  induction p as [|e rest IH]; simpl; [constructor|].
  destruct (f e) eqn:He; [discriminate|].
  destruct (QueueSpec.extract f rest) as [[x rest']|]; [discriminate|].
  intros _. constructor; auto.
Qed.

Lemma extract_Some f p y p' :
  QueueSpec.extract f p = Some (y, p') ->
  exists l1 l2, p = l1 ++ y :: l2 /\ p' = l1 ++ l2 /\ f y = true /\
                Forall (fun x => f x = false) l1.
Proof.
  revert p'. induction p as [|e rest IH]; simpl; [discriminate|].
  intros p'. destruct (f e) eqn:He.
  - intros [= <- <-]. exists [], rest. repeat split; auto.
  - destruct (QueueSpec.extract f rest) as [[x rest']|] eqn:Hx; [|discriminate].
    intros [= <- <-]. destruct (IH _ eq_refl) as (l1 & l2 & -> & -> & Hy & Hl1).
    exists (e :: l1), l2. repeat split; auto.
Qed.

Lemma top_spec p e :
  QueueSpec.top p e = true <-> forall x, In x p -> priority x <= priority e.
Proof.
  unfold QueueSpec.top. rewrite forallb_forall.
  split; intros H x Hx; specialize (H x Hx); lia.
Qed.

Lemma top_priority p e e' :
  priority e = priority e' -> QueueSpec.top p e = QueueSpec.top p e'.
Proof. intros H. unfold QueueSpec.top. rewrite H. reflexivity. Qed.

Lemma holds_pop x q p :
  holds (x :: q) p ->
  exists p', QueueSpec.pop p = Some (x, p') /\ holds q p'.
Proof.
  intros H. pose proof H as [[Hx Hq] Hf].
  assert (Hxp : In x p) by (apply (holds_In _ _ x H); left; reflexivity).
  assert (Htop : QueueSpec.top p x = true).
  { apply top_spec. intros y Hy. apply (holds_In _ _ y H) in Hy.
    destruct Hy as [->|Hy]; [lia|].
    rewrite Forall_forall in Hx. apply Hx, list_elem_of_In, Hy. }
  unfold QueueSpec.pop.
  destruct (QueueSpec.extract (QueueSpec.top p) p) as [[y p']|] eqn:E.
  - destruct (extract_Some _ _ _ _ E) as (l1 & l2 & Hp & -> & Hy & Hl1).
    assert (Hyx : priority y = priority x).
    { apply Z.le_antisymm.
      - apply (proj1 (top_spec p x) Htop). rewrite Hp. apply in_or_app. right; left; reflexivity.
      - apply (proj1 (top_spec p y) Hy), Hxp. }
    assert (Hl1' : Forall (fun z => priority z <> priority x) l1).
    { eapply Forall_impl; [exact Hl1|]. simpl. intros z Hz Heq.
      rewrite (top_priority p z x Heq), Htop in Hz. discriminate. }
    pose proof (Hf (priority x)) as Hm.
    rewrite Hp, at_priority_app, (at_priority_none _ l1 Hl1') in Hm.
    rewrite !at_priority_cons, Z.eqb_refl in Hm.
    rewrite (proj2 (Z.eqb_eq _ _) Hyx) in Hm. simpl in Hm.
    injection Hm as Hxy Hm. subst y.
    exists (l1 ++ l2). split; [reflexivity|]. split; [exact Hq|].
    intros k. destruct (Z.eq_dec k (priority x)) as [->|Hk].
    + rewrite at_priority_app, (at_priority_none _ l1 Hl1'). exact Hm.
    + pose proof (Hf k) as Hk'.
      rewrite Hp, !at_priority_app, !at_priority_cons in Hk'.
      destruct (Z.eqb_spec (priority x) k); [congruence|].
      rewrite at_priority_app. exact Hk'.
  - apply extract_None in E. rewrite Forall_forall in E.
    apply list_elem_of_In, E in Hxp. congruence.
Qed.

Lemma queue_run_refines ops : forall q p ev,
  holds q p ->
  map popped (snd (queue_run ops (q, ev))) = snd (QueueSpec.run ops p).
Proof.
  induction ops as [|op ops IH]; intros q p ev H; [reflexivity|].
  destruct op as [e|]; simpl.
  - specialize (IH _ _ ev (holds_push q p e H)).
    destruct (queue_run ops _) as [st2 o2]. exact IH.
  - destruct q as [|x q]; simpl.
    + pose proof (holds_nil p H); subst p. simpl.
      specialize (IH [] [] ev H).
      destruct (queue_run ops _) as [st2 o2].
      destruct (QueueSpec.run ops []) as [p2 o2'].
      simpl in *. f_equal. exact IH.
    + destruct (holds_pop x q p H) as (p' & -> & H').
      specialize (IH q p' x H').
      destruct (queue_run ops _) as [st2 o2].
      destruct (QueueSpec.run ops p') as [p2 o2'].
      simpl in *. f_equal. exact IH.
Qed.

Lemma queue_run_holds ops : forall q p ev,
  holds q p ->
  holds (fst (fst (queue_run ops (q, ev)))) (fst (QueueSpec.run ops p)).
Proof.
  induction ops as [|op ops IH]; intros q p ev H; [exact H|].
  destruct op as [e|]; simpl.
  - specialize (IH _ _ ev (holds_push q p e H)).
    destruct (queue_run ops _) as [st2 o2]. exact IH.
  - destruct q as [|x q]; simpl.
    + pose proof (holds_nil p H); subst p. simpl.
      specialize (IH [] [] ev H).
      destruct (queue_run ops _) as [st2 o2].
      destruct (QueueSpec.run ops []) as [p2 o2'].
      exact IH.
    + destruct (holds_pop x q p H) as (p' & -> & H').
      specialize (IH q p' x H').
      destruct (queue_run ops _) as [st2 o2].
      destruct (QueueSpec.run ops p') as [p2 o2'].
      exact IH.
Qed.

Lemma holds_empty : holds [] [].
Proof. split; [exact I | reflexivity]. Qed.

(** What [QueueSpec.pop] takes: an enqueued event that nothing enqueued
    outranks and that everything pushed before it ranks strictly below. *)
Lemma spec_pop_earliest_top p x p' :
  QueueSpec.pop p = Some (x, p') ->
  exists l1 l2, p = l1 ++ x :: l2 /\ p' = l1 ++ l2 /\
    (forall y, In y l1 -> priority y < priority x) /\
    (forall y, In y l2 -> priority y <= priority x).
Proof.
  unfold QueueSpec.pop. intros E.
  destruct (extract_Some _ _ _ _ E) as (l1 & l2 & Hp & -> & Hx & Hl1).
  exists l1, l2. split; [exact Hp|]. split; [reflexivity|].
  pose proof (proj1 (top_spec p x) Hx) as Hle. split.
  - intros y Hy.
    assert (priority y <= priority x) by (apply Hle; rewrite Hp; apply in_or_app; auto).
    destruct (Z.eq_dec (priority y) (priority x)) as [Heq|]; [|lia].
    rewrite Forall_forall in Hl1. apply list_elem_of_In, Hl1 in Hy.
    rewrite (top_priority p y x Heq), Hx in Hy. discriminate.
  - intros y Hy. apply Hle. rewrite Hp. apply in_or_app. right; right; exact Hy.
Qed.

(** C1. Starting from the empty queue, after any sequence of pushes and
    pops: the pops returned exactly what the ordering contract prescribes
    (the enqueued event of maximum priority, the earliest pushed among
    equals, or nothing); and the next pop does so too.  With [pending] the
    events now enqueued, in the order they were pushed: on an empty queue
    the pop returns 0 and leaves queue and out-parameter as they were;
    otherwise it returns 1 and an event [e] of [pending] such that every
    event pushed before it has strictly lower priority and every event
    pushed after it has at most its priority, and the queue then holds the
    other events. *)
Theorem event_queue_priority_fifo :
  forall (ops : list QueueOp) (ev0 ev : Event),
    let run := queue_run ops (event_queue_init, ev0) in
    let q := fst (fst run) in
    let pending := fst (QueueSpec.run ops []) in
    map popped (snd run) = snd (QueueSpec.run ops []) /\
    holds q pending /\
    (pending = [] -> event_queue_pop q ev = (0, q, ev)) /\
    (pending <> [] ->
     exists e q' l1 l2,
       event_queue_pop q ev = (1, q', e) /\
       pending = l1 ++ e :: l2 /\
       (forall y, In y l1 -> priority y < priority e) /\
       (forall y, In y l2 -> priority y <= priority e) /\
       holds q' (l1 ++ l2)).
Proof.
  intros ops ev0 ev run q pending.
  assert (H : holds q pending) by (apply queue_run_holds, holds_empty).
  split; [apply queue_run_refines, holds_empty|].
  split; [exact H|].
  split.
  - intros Hp. rewrite Hp in H.
    destruct q as [|x q']; [reflexivity|].
    exfalso. apply (holds_In _ _ x H). left; reflexivity.
  - intros Hp. destruct q as [|x q'].
    + elim Hp. apply holds_nil, H.
    + destruct (holds_pop x q' pending H) as (p' & Hpop & H').
      destruct (spec_pop_earliest_top _ _ _ Hpop) as (l1 & l2 & E & -> & Hl1 & Hl2).
      exists x, q', l1, l2. repeat split; auto; apply H'.
Qed.

(** The scenario of the specification: Low, Insufficient, High pushed in
    that order come out as Insufficient, Low, High, then nothing. *)
Lemma event_queue_priority_fifo_scenario :
  let low := event_init (Some crew_loc) (Some oxygen_loc) EVENT_LOW in
  let insufficient := event_init (Some crew_loc) (Some oxygen_loc) EVENT_INSUFFICIENT in
  let high := event_init (Some propulsion_loc) (Some fuel_loc) EVENT_HIGH in
  let ops := [Push low; Push insufficient; Push high; Pop; Pop; Pop; Pop] in
  map popped (snd (queue_run ops (event_queue_init, low))) =
    [Some insufficient; Some low; Some high; None] /\
  event_queue_pop (fst (fst (queue_run ops (event_queue_init, low)))) low = (0, [], low).
Proof.
  intros low insufficient high ops.
  destruct (event_queue_priority_fifo ops low low) as (Hout & _ & Hempty & _).
  split.
  - rewrite Hout. reflexivity.
  - apply Hempty. reflexivity.
Defined.

(** ** Priorities of the event kinds *)

(** C9. [event_init] derives the priority from the status alone, and the
    kinds map to the tiers: Insufficient to HIGH; Low, Capacity and High to
    MEDIUM; Produced to IGNORED. *)
Theorem event_init_priority_of_kind :
  forall (sys res : ptr) (kind : Z),
    priority (event_init sys res kind) = Z.land kind 0xFF00 /\
    status (event_init sys res kind) = kind /\
    (forall sys' res', priority (event_init sys' res' kind) = priority (event_init sys res kind)) /\
    priority (event_init sys res EVENT_INSUFFICIENT) = PRIORITY_HIGH /\
    priority (event_init sys res EVENT_LOW) = PRIORITY_MED /\
    priority (event_init sys res EVENT_CAPACITY) = PRIORITY_MED /\
    priority (event_init sys res EVENT_HIGH) = PRIORITY_MED /\
    priority (event_init sys res EVENT_PRODUCED) = PRIORITY_IGN.
Proof.
  intros sys res kind. repeat split.
Qed.

(** ** Resource transfers *)

Lemma wrap_small z : in_int z -> wrap z = z.
Proof.
  unfold in_int, INT_MIN, INT_MAX, wrap. intros H.
  rewrite Z.mod_small by lia. lia.
Qed.

Lemma wrap_in_int z : in_int (wrap z).
Proof.
  unfold in_int, INT_MIN, INT_MAX, wrap.
  pose proof (Z.mod_pos_bound (z + 2 ^ 31) (2 ^ 32) ltac:(lia)). lia.
Qed.

Lemma transfer_into_amount r req :
  resource_ok r -> 0 <= req ->
  amount (fst (resource_transfer_into r req)) =
    amount r + Z.min req (max_capacity r - amount r).
Proof.
  intros [Ha Hm] Hreq. unfold in_int, INT_MIN, INT_MAX in Hm.
  unfold resource_transfer_into, int_sub, int_add. simpl.
  rewrite (wrap_small (max_capacity r - amount r))
    by (unfold in_int, INT_MIN, INT_MAX; lia).
  destruct (Z.geb_spec (max_capacity r - amount r) req);
    rewrite wrap_small by (unfold in_int, INT_MIN, INT_MAX; lia); lia.
Qed.

Lemma transfer_from_amount r req :
  resource_ok r -> 0 <= req ->
  amount (fst (resource_transfer_from r req)) = amount r - Z.min req (amount r).
Proof.
  intros [Ha Hm] Hreq. unfold in_int, INT_MIN, INT_MAX in Hm.
  unfold resource_transfer_from, int_sub. simpl.
  destruct (Z.ltb_spec (amount r) req);
    rewrite wrap_small by (unfold in_int, INT_MIN, INT_MAX; lia); lia.
Qed.

Lemma transfer_into_residual r req :
  resource_ok r -> 0 <= req -> in_int req ->
  snd (resource_transfer_into r req) = req - Z.min req (max_capacity r - amount r).
Proof.
  intros [Ha Hm] Hreq Hint. unfold in_int, INT_MIN, INT_MAX in Hm, Hint.
  unfold resource_transfer_into, int_sub. simpl.
  rewrite (wrap_small (max_capacity r - amount r))
    by (unfold in_int, INT_MIN, INT_MAX; lia).
  destruct (Z.geb_spec (max_capacity r - amount r) req);
    rewrite wrap_small by (unfold in_int, INT_MIN, INT_MAX; lia); lia.
Qed.

Lemma transfer_from_residual r req :
  resource_ok r -> 0 <= req -> in_int req ->
  snd (resource_transfer_from r req) = req - Z.min req (amount r).
Proof.
  intros [Ha Hm] Hreq Hint. unfold in_int, INT_MIN, INT_MAX in Hm, Hint.
  unfold resource_transfer_from, int_sub. simpl.
  destruct (Z.ltb_spec (amount r) req);
    rewrite wrap_small by (unfold in_int, INT_MIN, INT_MAX; lia); lia.
Qed.

Lemma transfer_into_frame r req :
  name (fst (resource_transfer_into r req)) = name r /\
  max_capacity (fst (resource_transfer_into r req)) = max_capacity r.
Proof. split; reflexivity. Qed.

Lemma transfer_from_frame r req :
  name (fst (resource_transfer_from r req)) = name r /\
  max_capacity (fst (resource_transfer_from r req)) = max_capacity r.
Proof. split; reflexivity. Qed.

Lemma transfer_into_ok r req :
  resource_ok r -> 0 <= req -> resource_ok (fst (resource_transfer_into r req)).
Proof.
  intros H Hreq. pose proof (transfer_into_amount r req H Hreq) as E.
  destruct H as [Ha Hm]. split; [|exact Hm].
  rewrite E. change (max_capacity (fst (resource_transfer_into r req)))
    with (max_capacity r). lia.
Qed.

Lemma transfer_from_ok r req :
  resource_ok r -> 0 <= req -> resource_ok (fst (resource_transfer_from r req)).
Proof.
  intros H Hreq. pose proof (transfer_from_amount r req H Hreq) as E.
  destruct H as [Ha Hm]. split; [|exact Hm].
  rewrite E. change (max_capacity (fst (resource_transfer_from r req)))
    with (max_capacity r). lia.
Qed.

(** C2. For a resource within its capacity and a request that is not
    negative, both transfers return (they are total functions): after
    [resource_transfer_into] the amount is at most the capacity and the
    residual plus what was added is the request; after
    [resource_transfer_from] the amount is not negative and the residual
    plus what was removed is the request.  What is moved is the feasible
    quantity: the minimum of the request and the room, or the stock. *)
Theorem transfer_postconditions :
  forall (r : Resource) (requested : Z),
    0 <= amount r <= max_capacity r -> in_int (max_capacity r) ->
    0 <= requested -> in_int requested ->
    (exists r' residual,
       resource_transfer_into r requested = (r', residual) /\
       amount r' <= max_capacity r' /\
       residual + (amount r' - amount r) = requested /\
       amount r' - amount r = Z.min requested (max_capacity r - amount r) /\
       0 <= residual) /\
    (exists r' residual,
       resource_transfer_from r requested = (r', residual) /\
       0 <= amount r' /\
       residual + (amount r - amount r') = requested /\
       amount r - amount r' = Z.min requested (amount r) /\
       0 <= residual).
Proof.
  intros r req Ha Hm Hreq Hint.
  assert (Hok : resource_ok r) by (split; assumption).
  split.
  - exists (fst (resource_transfer_into r req)), (snd (resource_transfer_into r req)).
    split; [apply surjective_pairing|].
    pose proof (transfer_into_ok r req Hok Hreq) as [Hb _].
    rewrite (transfer_into_residual r req Hok Hreq Hint).
    rewrite (transfer_into_amount r req Hok Hreq) in *.
    change (max_capacity (fst (resource_transfer_into r req)))
      with (max_capacity r) in *. lia.
  - exists (fst (resource_transfer_from r req)), (snd (resource_transfer_from r req)).
    split; [apply surjective_pairing|].
    rewrite (transfer_from_residual r req Hok Hreq Hint).
    rewrite (transfer_from_amount r req Hok Hreq). lia.
Qed.

(** Fuel at 990 of 1000 and a request of 25: 10 go in and 15 come back;
    all 25 can be taken out. *)
Lemma transfer_postconditions_fuel :
  let r := resource_create "Fuel" 990 1000 in
  (exists r' residual,
     resource_transfer_into r 25 = (r', residual) /\
     amount r' <= max_capacity r' /\
     residual + (amount r' - amount r) = 25 /\
     amount r' - amount r = Z.min 25 (max_capacity r - amount r) /\
     0 <= residual) /\
  (exists r' residual,
     resource_transfer_from r 25 = (r', residual) /\
     0 <= amount r' /\
     residual + (amount r - amount r') = 25 /\
     amount r - amount r' = Z.min 25 (amount r) /\
     0 <= residual).
Proof.
  intros r.
  apply (transfer_postconditions r 25);
    [simpl; lia | vm_compute; split; discriminate | lia
    | vm_compute; split; discriminate].
Defined.

(** ** Frames of the runs *)

Section Stops.

Context (R : State -> State -> Prop) `{!PreOrder R}.

Lemma stops_bind {A B : Type} (f : A -> State) (g : B -> State) st
  (r : result A) (k : A -> result B) :
  stops R f st r ->
  (forall a, r = Done a -> stops R g (f a) (k a)) ->
  stops R g st (r ≫= k).
Proof.
  unfold stops. destruct r as [a|s|s]; simpl; intros H Hk; auto.
  transitivity (f a); auto.
Qed.

Lemma stops_Done {A : Type} (f : A -> State) st a :
  R st (f a) -> stops R f st (Done a).
Proof. intros H; exact H. Qed.

Lemma stops_deref_system {B : Type} (g : B -> State) st p (k : System -> result B) :
  (forall s, deref_system st p = Done s -> stops R g st (k s)) ->
  stops R g st (deref_system st p ≫= k).
Proof.
  intros Hk. apply (stops_bind (fun _ => st)); [|exact Hk].
  unfold stops, deref_system.
  destruct p as [l|]; [destruct (system_heap st !! l)|]; simpl; reflexivity.
Qed.

Lemma stops_deref_resource {B : Type} (g : B -> State) st p (k : Resource -> result B) :
  (forall r, deref_resource st p = Done r -> stops R g st (k r)) ->
  stops R g st (deref_resource st p ≫= k).
Proof.
  intros Hk. apply (stops_bind (fun _ => st)); [|exact Hk].
  unfold stops, deref_resource.
  destruct p as [l|]; [destruct (resource_heap st !! l)|]; simpl; reflexivity.
Qed.

Lemma stops_get_mode {B : Type} (g : B -> State) st l (k : Z -> result B) :
  (forall s, system_heap st !! l = Some s -> stops R g st (k (mode s))) ->
  stops R g st (system_get_mode st l ≫= k).
Proof.
  intros Hk. unfold system_get_mode, deref_system.
  destruct (system_heap st !! l) as [s|] eqn:E; simpl.
  - apply Hk. reflexivity.
  - unfold stops. simpl. reflexivity.
Qed.

End Stops.

Ltac stop_now := unfold stops; simpl; reflexivity.
Ltac frame_same := first [reflexivity | cbn; lia].

Lemma stops_from {A : Type} (R : State -> State -> Prop) `{!Transitive R}
  (f : A -> State) st st1 (r : result A) :
  R st st1 -> stops R f st1 r -> stops R f st r.
Proof. unfold stops. intros H1 H2. transitivity st1; assumption. Qed.

#[local] Instance system_frame_preorder : PreOrder system_frame.
Proof.
  split.
  - intros st. split; [apply rtc_refl | reflexivity].
  - intros a b c [H1 H2] [H3 H4]. split.
    + unfold by_transfers in *. etrans; eassumption.
    + unfold same_systems in *. congruence.
Qed.

#[local] Instance manager_frame_preorder : PreOrder manager_frame.
Proof.
  split.
  - intros st. split; [reflexivity|]. split; [intros l s H _; exact H | lia].
  - intros a b c (H1 & H2 & H5) (H3 & H4 & H6). split; [|split].
    + unfold same_resources in *. congruence.
    + intros l s Hl Hm. apply H4; auto.
    + lia.
Qed.

Lemma system_frame_same st st' :
  resource_heap st' = resource_heap st -> system_heap st' = system_heap st ->
  system_frame st st'.
Proof.
  intros H1 H2. split; [|exact H2].
  unfold by_transfers. rewrite H1. apply rtc_refl.
Qed.

Lemma manager_frame_same st st' :
  resource_heap st' = resource_heap st -> system_heap st' = system_heap st ->
  (length (event_queue st') <= length (event_queue st))%nat ->
  manager_frame st st'.
Proof.
  intros H1 H2 H3. split; [exact H1|]. split; [|exact H3].
  intros l s Hl _. rewrite H2. exact Hl.
Qed.

(** *** system.c *)

Lemma transfer_from_at_frame st p amt :
  0 <= amt -> stops system_frame fst st (transfer_from_at st p amt).
Proof.
  intros Hamt. unfold transfer_from_at. destruct p as [l|]; [|stop_now].
  apply stops_deref_resource; [typeclasses eauto|]. intros r Hr.
  destruct (resource_transfer_from r amt) as [r' amt'] eqn:E.
  apply stops_Done. split; [|stop_now].
  unfold by_transfers. simpl. apply rtc_once.
  replace r' with (fst (resource_transfer_from r amt)) by (rewrite E; reflexivity).
  apply step_from; [|exact Hamt].
  unfold deref_resource in Hr. destruct (resource_heap st !! l); congruence.
Qed.

Lemma transfer_into_at_frame st p amt :
  0 <= amt -> stops system_frame fst st (transfer_into_at st p amt).
Proof.
  intros Hamt. unfold transfer_into_at. destruct p as [l|]; [|stop_now].
  apply stops_deref_resource; [typeclasses eauto|]. intros r Hr.
  destruct (resource_transfer_into r amt) as [r' amt'] eqn:E.
  apply stops_Done. split; [|stop_now].
  unfold by_transfers. simpl. apply rtc_once.
  replace r' with (fst (resource_transfer_into r amt)) by (rewrite E; reflexivity).
  apply step_into; [|exact Hamt].
  unfold deref_resource in Hr. destruct (resource_heap st !! l); congruence.
Qed.

Lemma pull_loop_frame fuel : forall system amt st,
  stops system_frame fst st (pull_loop fuel system amt st).
Proof.
  induction fuel as [|fuel IH]; intros system amt st; cbn [pull_loop]; [stop_now|].
  destruct (Z.gtb_spec amt 0) as [Hamt|Hamt]; [|stop_now].
  apply stops_get_mode; [typeclasses eauto|]. intros s0 Hs0.
  destruct (negb (mode s0 =? MODE_TERMINATE)); [|stop_now].
  apply stops_deref_system; [typeclasses eauto|]. intros s Hs.
  eapply (stops_bind _ fst); [apply transfer_from_at_frame; lia|].
  intros [st1 amt'] _. cbn [fst].
  destruct (amt' >? 0); [|apply IH].
  destruct (negb (SINGLE_THREAD_MODE =? 0)).
  - apply stops_Done. apply system_frame_same; reflexivity.
  - eapply stops_from; [typeclasses eauto| |apply IH].
    apply system_frame_same; reflexivity.
Qed.

Lemma system_simulate_process_time_frame st system :
  stops system_frame id st (system_simulate_process_time st system).
Proof.
  unfold system_simulate_process_time.
  apply stops_deref_system; [typeclasses eauto|]. intros s Hs.
  apply stops_Done, system_frame_same; reflexivity.
Qed.

Lemma process_step_frame system amt st :
  stops system_frame fst st (process_step system amt st).
Proof.
  unfold process_step. destruct (amt =? 0); [|stop_now].
  eapply (stops_bind _ id); [apply system_simulate_process_time_frame|].
  intros st1 _. unfold id.
  apply stops_deref_system; [typeclasses eauto|]. intros s Hs.
  apply stops_Done, system_frame_same; reflexivity.
Qed.

Lemma push_loop_frame fuel : forall system amt st,
  stops system_frame fst st (push_loop fuel system amt st).
Proof.
  induction fuel as [|fuel IH]; intros system amt st; cbn [push_loop]; [stop_now|].
  apply stops_deref_system; [typeclasses eauto|]. intros s Hs.
  destruct (output (recipe s)) as [o|] eqn:Ho; [|stop_now].
  destruct (Z.gtb_spec amt 0) as [Hamt|Hamt]; [|stop_now].
  apply stops_get_mode; [typeclasses eauto|]. intros s0 Hs0.
  destruct (negb (mode s0 =? MODE_TERMINATE)); [|stop_now].
  eapply (stops_bind _ fst); [apply transfer_into_at_frame; lia|].
  intros [st1 amt'] _. cbn [fst].
  destruct (amt' >? 0); [|apply IH].
  destruct (negb (SINGLE_THREAD_MODE =? 0)).
  - apply stops_Done. apply system_frame_same; reflexivity.
  - eapply stops_from; [typeclasses eauto| |apply IH].
    apply system_frame_same; reflexivity.
Qed.

Lemma report_recipe_thresholds_frame st system :
  stops system_frame id st (report_recipe_thresholds st system).
Proof.
  unfold report_recipe_thresholds.
  apply stops_deref_system; [typeclasses eauto|]. intros s Hs.
  destruct (input (recipe s)) as [i|]; [|stop_now].
  apply stops_deref_resource; [typeclasses eauto|]. intros r Hr.
  destruct (_ <=? _); [apply stops_Done, system_frame_same; reflexivity|].
  destruct (_ >? _); [apply stops_Done, system_frame_same; reflexivity|].
  stop_now.
Qed.

Lemma system_run_frame fuel system st :
  stops system_frame id st (system_run fuel system st).
Proof.
  unfold system_run.
  apply stops_deref_system; [typeclasses eauto|]. intros s Hs.
  eapply (stops_bind _ fst); [apply pull_loop_frame|].
  intros [st1 [amt'|]] _; cbn [fst]; [|stop_now].
  eapply (stops_bind _ fst); [apply process_step_frame|].
  intros [st2 out] _; cbn [fst].
  eapply (stops_bind _ fst); [apply push_loop_frame|].
  intros [st3 [|]] _; cbn [fst]; [|stop_now].
  apply report_recipe_thresholds_frame.
Qed.

Lemma system_thread_loop_frame fuel : forall system st,
  stops system_frame id st (system_thread_loop fuel system st).
Proof.
  induction fuel as [|fuel IH]; intros system st; cbn [system_thread_loop]; [stop_now|].
  apply stops_get_mode; [typeclasses eauto|]. intros s0 Hs0.
  destruct (negb (mode s0 =? MODE_TERMINATE)); [|stop_now].
  eapply (stops_bind _ id); [apply system_run_frame|].
  intros st1 _. unfold id at 1.
  eapply stops_from; [typeclasses eauto| |apply IH].
  apply system_frame_same; reflexivity.
Qed.

Lemma system_thread_frame fuel arg st :
  stops system_frame id st (system_thread fuel arg st).
Proof.
  destruct arg as [system|]; cbn [system_thread].
  - apply system_thread_loop_frame.
  - apply stops_Done, system_frame_same; reflexivity.
Qed.

(** *** manager.c *)

Lemma system_set_mode_frame st sys m s0 :
  system_heap st !! sys = Some s0 -> mode s0 <> MODE_TERMINATE ->
  stops manager_frame id st (system_set_mode st sys m).
Proof.
  intros Hs0 Hm. unfold system_set_mode.
  apply stops_deref_system; [typeclasses eauto|]. intros s Hs.
  apply stops_Done. split; [reflexivity|]. split; [|cbn; lia].
  intros l s' Hl Hterm. unfold id. cbn [system_heap set_system_heap].
  destruct (decide (sys = l)) as [->|Hne].
  - congruence.
  - rewrite lookup_insert_ne by exact Hne. exact Hl.
Qed.

Lemma update_systems_frame m event systems : forall st,
  stops manager_frame id st (update_systems m event systems st).
Proof.
  induction systems as [|sys rest IH]; intros st; cbn [update_systems]; [stop_now|].
  apply stops_get_mode; [typeclasses eauto|]. intros s0 Hs0.
  destruct (Z.eqb_spec (mode s0) MODE_TERMINATE) as [Hm|Hm]; [apply IH|].
  apply stops_deref_system; [typeclasses eauto|]. intros s Hs.
  destruct (_ || _); [|apply IH].
  eapply (stops_bind _ id); [eapply system_set_mode_frame; eassumption|].
  intros st1 _. apply IH.
Qed.

Lemma display_event_frame st event :
  stops manager_frame id st (display_event st event).
Proof.
  unfold display_event.
  apply stops_deref_system; [typeclasses eauto|]. intros s Hs.
  apply stops_deref_resource; [typeclasses eauto|]. intros r Hr.
  apply stops_Done, manager_frame_same; frame_same.
Qed.

Lemma status_and_name_frame st event code text :
  stops manager_frame (fun _ => st) st (status_and_name st event code text).
Proof.
  unfold status_and_name. destruct (_ =? _); [|stop_now].
  apply stops_deref_resource; [typeclasses eauto|]. intros r Hr. stop_now.
Qed.

Lemma manager_run_body_frame event st :
  stops manager_frame id st (manager_run_body event st).
Proof.
  unfold manager_run_body.
  apply stops_deref_system; [typeclasses eauto|]. intros s0 Hs0.
  eapply stops_from with (st1 := emit _ st);
    [typeclasses eauto | apply manager_frame_same; frame_same |].
  destruct (priority event =? PRIORITY_IGN); [stop_now|].
  eapply (stops_bind _ id); [apply display_event_frame|].
  intros st1 _. unfold id at 1.
  eapply (stops_bind _ (fun _ => st1)); [apply status_and_name_frame|].
  intros no_oxygen_flag _.
  eapply (stops_bind _ (fun _ => st1)); [apply status_and_name_frame|].
  intros distance_reached_flag _.
  match goal with
  | |- stops _ _ _ (let '(m, st) := ?c in _) =>
      assert (Hc : manager_frame st1 (snd c));
      [|destruct c as [m st2]; cbn [snd] in Hc]
  end.
  { destruct no_oxygen_flag; [apply manager_frame_same; frame_same|].
    destruct distance_reached_flag; [apply manager_frame_same; frame_same|].
    destruct (_ || _); [reflexivity|]. destruct (_ || _); reflexivity. }
  eapply stops_from; [typeclasses eauto | exact Hc |].
  eapply (stops_bind _ id); [apply update_systems_frame|].
  intros st3 _. apply stops_Done, manager_frame_same; frame_same.
Qed.

Lemma manager_run_loop_frame fuel : forall event st,
  stops manager_frame id st (manager_run_loop fuel event st).
Proof.
  induction fuel as [|fuel IH]; intros event st; cbn [manager_run_loop]; [stop_now|].
  destruct (simulation_running st =? 0); [stop_now|].
  destruct (event_queue st) as [|event' q] eqn:Hq; cbn [event_queue_pop]; [stop_now|].
  change (1 =? 0) with false. cbv iota.
  eapply stops_from with (st1 := set_event_queue q st);
    [typeclasses eauto
    | apply manager_frame_same; [reflexivity | reflexivity | cbn; rewrite Hq; cbn; lia] |].
  eapply (stops_bind _ id); [apply manager_run_body_frame|].
  intros st1 _. apply IH.
Qed.

Lemma manager_run_frame fuel st :
  stops manager_frame id st (manager_run fuel st).
Proof.
  unfold manager_run.
  eapply stops_from; [typeclasses eauto | | apply manager_run_loop_frame].
  apply manager_frame_same; frame_same.
Qed.

Lemma manager_thread_loop_frame fuel : forall st,
  stops manager_frame id st (manager_thread_loop fuel st).
Proof.
  induction fuel as [|fuel IH]; intros st; cbn [manager_thread_loop]; [stop_now|].
  destruct (simulation_running st =? 0); [stop_now|].
  eapply (stops_bind _ id); [apply manager_run_frame|].
  intros st1 _. unfold id at 1.
  eapply stops_from; [typeclasses eauto| |apply IH].
  apply manager_frame_same; frame_same.
Qed.

Lemma manager_thread_frame fuel st :
  stops manager_frame id st (manager_thread fuel st).
Proof.
  unfold manager_thread.
  eapply stops_from with (st1 := emit _ st);
    [typeclasses eauto | apply manager_frame_same; frame_same |].
  eapply (stops_bind _ id); [apply manager_thread_loop_frame|].
  intros st1 _. apply stops_Done, manager_frame_same; frame_same.
Qed.

(** *** The loop of [manager_run] ends *)

Lemma fuel_free_bind {A B : Type} (r : result A) (k : A -> result B) :
  fuel_free r -> (forall a, r = Done a -> fuel_free (k a)) -> fuel_free (r ≫= k).
Proof.
  intros Hr Hk st. destruct r as [a|s|s]; cbn [mbind result_bind].
  - apply Hk. reflexivity.
  - discriminate.
  - elim (Hr s). reflexivity.
Qed.

Lemma fuel_free_deref_system st p : fuel_free (deref_system st p).
Proof.
  intros s. unfold deref_system.
  destruct p as [l|]; [destruct (system_heap st !! l)|]; discriminate.
Qed.

Lemma fuel_free_deref_resource st p : fuel_free (deref_resource st p).
Proof.
  intros s. unfold deref_resource.
  destruct p as [l|]; [destruct (resource_heap st !! l)|]; discriminate.
Qed.

Lemma fuel_free_Done {A : Type} (a : A) : fuel_free (Done a).
Proof. intros s. discriminate. Qed.

Lemma fuel_free_update_systems m event systems : forall st,
  fuel_free (update_systems m event systems st).
Proof.
  induction systems as [|sys rest IH]; intros st; cbn [update_systems].
  - apply fuel_free_Done.
  - unfold system_get_mode.
    apply fuel_free_bind;
      [apply fuel_free_bind; [apply fuel_free_deref_system|]; intros; apply fuel_free_Done|].
    intros cur _. destruct (cur =? MODE_TERMINATE); [apply IH|].
    apply fuel_free_bind; [apply fuel_free_deref_system|]. intros s _.
    destruct (_ || _); [|apply IH].
    apply fuel_free_bind; [|intros; apply IH].
    unfold system_set_mode.
    apply fuel_free_bind; [apply fuel_free_deref_system|]. intros; apply fuel_free_Done.
Qed.

Lemma fuel_free_status_and_name st event code text :
  fuel_free (status_and_name st event code text).
Proof.
  unfold status_and_name. destruct (_ =? _); [|apply fuel_free_Done].
  apply fuel_free_bind; [apply fuel_free_deref_resource|]. intros; apply fuel_free_Done.
Qed.

Lemma fuel_free_manager_run_body event st : fuel_free (manager_run_body event st).
Proof.
  unfold manager_run_body.
  apply fuel_free_bind; [apply fuel_free_deref_system|]. intros s0 _.
  destruct (_ =? _); [apply fuel_free_Done|].
  apply fuel_free_bind.
  { unfold display_event.
    apply fuel_free_bind; [apply fuel_free_deref_system|]. intros s _.
    apply fuel_free_bind; [apply fuel_free_deref_resource|]. intros; apply fuel_free_Done. }
  intros st1 _.
  apply fuel_free_bind; [apply fuel_free_status_and_name|]. intros b1 _.
  apply fuel_free_bind; [apply fuel_free_status_and_name|]. intros b2 _.
  match goal with
  | |- fuel_free (let '(m, st) := ?c in _) => destruct c as [m st2]
  end.
  apply fuel_free_bind; [apply fuel_free_update_systems|]. intros; apply fuel_free_Done.
Qed.

(** With more fuel than there are events in the queue, [manager_run]
    returns (or stops at an invalid pointer): the loop pops one event per
    iteration and nothing is pushed meanwhile. *)
Lemma manager_run_loop_returns fuel : forall event st,
  (length (event_queue st) < fuel)%nat ->
  fuel_free (manager_run_loop fuel event st).
Proof.
  induction fuel as [|fuel IH]; intros event st Hlen; [lia|].
  cbn [manager_run_loop].
  destruct (simulation_running st =? 0); [apply fuel_free_Done|].
  destruct (event_queue st) as [|event' q] eqn:Hq; cbn [event_queue_pop];
    [apply fuel_free_Done|].
  change (1 =? 0) with false. cbv iota.
  apply fuel_free_bind; [apply fuel_free_manager_run_body|].
  intros st1 Hbody. apply IH.
  pose proof (manager_run_body_frame event' (set_event_queue q st)) as (_ & _ & Hle).
  rewrite Hbody in Hle. cbn in Hle, Hlen. lia.
Qed.

Lemma manager_run_returns fuel st :
  (length (event_queue st) < fuel)%nat -> fuel_free (manager_run fuel st).
Proof. intros H. apply manager_run_loop_returns. exact H. Qed.

(** ** The manager's reaction to an event *)

Lemma with_mode_same s : with_mode (mode s) s = s.
Proof. destruct s; reflexivity. Qed.

Lemma reacts_dec systems m event l s :
  reacts systems m event l s \/ ~ reacts systems m event l s.
Proof.
  unfold reacts.
  destruct (In_dec Nat.eq_dec l systems); [|tauto].
  destruct (Z.eq_dec (mode s) MODE_TERMINATE); [tauto|].
  destruct (Z.eq_dec m MODE_TERMINATE); [tauto|].
  destruct (decide (output (recipe s) = resource event)); tauto.
Qed.

Lemma update_systems_modes m event systems : forall st,
  (forall l, In l systems -> is_Some (system_heap st !! l)) ->
  exists st',
    update_systems m event systems st = Done st' /\
    st' = set_system_heap (system_heap st') st /\
    modes_assigned systems m event (system_heap st) (system_heap st').
Proof.
  induction systems as [|sys rest IH]; intros st Hall; cbn [update_systems].
  - exists st. split; [reflexivity|]. split; [destruct st; reflexivity|].
    intros l. destruct (system_heap st !! l) as [s|]; [|reflexivity].
    split; [intros [[] _] | reflexivity].
  - destruct (Hall sys (or_introl eq_refl)) as [s Hs].
    unfold system_get_mode, deref_system. rewrite Hs. cbn [mbind result_bind].
    assert (Hrest : forall st1,
      (forall l, system_heap st1 !! l =
         if decide (l = sys) then
           Some (if decide (mode s <> MODE_TERMINATE /\
                            (m = MODE_TERMINATE \/ output (recipe s) = resource event))
                 then with_mode m s else s)
         else system_heap st !! l) ->
      st1 = set_system_heap (system_heap st1) st ->
      exists st',
        update_systems m event rest st1 = Done st' /\
        st' = set_system_heap (system_heap st') st /\
        modes_assigned (sys :: rest) m event (system_heap st) (system_heap st')).
    { intros st1 H1 Hst1.
      destruct (IH st1) as (st' & Hrun & Hst' & Hmodes).
      { intros l Hl. rewrite H1. destruct (decide (l = sys)); [eauto|].
        apply Hall. right; exact Hl. }
      exists st'. split; [exact Hrun|]. split.
      { rewrite Hst', Hst1. reflexivity. }
      intros l. specialize (Hmodes l). rewrite H1 in Hmodes.
      destruct (decide (l = sys)) as [->|Hne].
      - rewrite Hs. destruct Hmodes as [Hyes Hno].
        destruct (decide (mode s <> MODE_TERMINATE /\
                          (m = MODE_TERMINATE \/ output (recipe s) = resource event)))
          as [Hr|Hr].
        + split; [|intros Hn; elim Hn; split; [left; reflexivity | exact Hr]].
          intros _.
          destruct (reacts_dec rest m event sys (with_mode m s)) as [Hr'|Hr'].
          * rewrite (Hyes Hr'). reflexivity.
          * exact (Hno Hr').
        + split; [intros (_ & Hr1 & Hr2); elim Hr; split; assumption|].
          intros _. apply Hno. intros (_ & Hr1 & Hr2). apply Hr. split; assumption.
      - destruct (system_heap st !! l) as [s'|]; [|exact Hmodes].
        destruct Hmodes as [Hyes Hno]. split.
        + intros (Hin & Hr1 & Hr2). apply Hyes.
          split; [|split; assumption]. destruct Hin as [E|Hin]; [congruence|exact Hin].
        + intros Hn. apply Hno. intros (Hin & Hr1 & Hr2). apply Hn.
          split; [right; exact Hin | split; assumption]. }
    destruct (Z.eqb_spec (mode s) MODE_TERMINATE) as [Hm|Hm].
    + apply Hrest; [|destruct st; reflexivity].
      intros l. destruct (decide (l = sys)) as [->|]; [|reflexivity].
      rewrite Hs. destruct (decide _) as [[Hn _]|]; [contradiction|reflexivity].
    + destruct (Z.eqb_spec m MODE_TERMINATE) as [Hmt|Hmt]; cbn [orb].
      * unfold system_set_mode, deref_system. rewrite Hs. cbn [mbind result_bind].
        apply Hrest; [|reflexivity].
        intros l. cbn [system_heap set_system_heap].
        destruct (decide (l = sys)) as [->|Hne].
        -- rewrite lookup_insert_eq.
           destruct (decide _) as [|Hn]; [reflexivity|]. elim Hn. auto.
        -- rewrite lookup_insert_ne by congruence. reflexivity.
      * destruct (bool_decide_reflect (output (recipe s) = resource event)) as [Ho|Ho].
        -- unfold system_set_mode, deref_system. rewrite Hs. cbn [mbind result_bind].
           apply Hrest; [|reflexivity].
           intros l. cbn [system_heap set_system_heap].
           destruct (decide (l = sys)) as [->|Hne].
           ++ rewrite lookup_insert_eq.
              destruct (decide _) as [|Hn]; [reflexivity|]. elim Hn. auto.
           ++ rewrite lookup_insert_ne by congruence. reflexivity.
        -- apply Hrest; [|destruct st; reflexivity].
           intros l. destruct (decide (l = sys)) as [->|]; [|reflexivity].
           rewrite Hs. destruct (decide _) as [[_ [Hn|Hn]]|]; [contradiction..|reflexivity].
Qed.

Lemma deref_system_same st st' p s :
  deref_system st p = Done s -> system_heap st' = system_heap st ->
  deref_system st' p = Done s.
Proof.
  unfold deref_system. intros H E. destruct p as [l|]; [|discriminate].
  rewrite E. destruct (system_heap st !! l); [exact H | discriminate].
Qed.

Lemma deref_resource_same st st' p r :
  deref_resource st p = Done r -> resource_heap st' = resource_heap st ->
  deref_resource st' p = Done r.
Proof.
  unfold deref_resource. intros H E. destruct p as [l|]; [|discriminate].
  rewrite E. destruct (resource_heap st !! l); [exact H | discriminate].
Qed.

Lemma status_and_name_Done st event code text r :
  deref_resource st (resource event) = Done r ->
  status_and_name st event code text =
    Done ((status event =? code) && String.eqb (name r) text).
Proof.
  intros H. unfold status_and_name. rewrite H.
  destruct (status event =? code); reflexivity.
Qed.

Lemma terminates_flags event r :
  terminates event r <->
  ((status event =? EVENT_INSUFFICIENT) && String.eqb (name r) "Oxygen") ||
  ((status event =? EVENT_CAPACITY) && String.eqb (name r) "Distance") = true.
Proof.
  unfold terminates.
  rewrite orb_true_iff, !andb_true_iff, !Z.eqb_eq, !String.eqb_eq. tauto.
Qed.

Lemma target_mode_not_terminate event : target_mode event <> MODE_TERMINATE.
Proof.
  unfold target_mode.
  destruct (_ || _); [discriminate|]. destruct (_ || _); discriminate.
Qed.

(** The loop of [manager_run] applies [manager_run_body] to each event it
    pops. *)
Lemma manager_run_loop_pops fuel event0 event q st :
  simulation_running st <> 0 -> event_queue st = event :: q ->
  manager_run_loop (S fuel) event0 st =
    (manager_run_body event (set_event_queue q st) ≫= manager_run_loop fuel event).
Proof.
  intros Hrun Hq. cbn [manager_run_loop].
  destruct (Z.eqb_spec (simulation_running st) 0); [contradiction|].
  rewrite Hq. reflexivity.
Qed.

(** One iteration of the loop, for an event that is not of the IGNORED
    tier and on valid pointers: what it decides and which systems it
    assigns the mode to. *)
Lemma manager_run_body_decision :
  forall (event : Event) (st : State) (s0 : System) (r : Resource),
    priority event <> PRIORITY_IGN ->
    deref_system st (system event) = Done s0 ->
    deref_resource st (resource event) = Done r ->
    (forall l, In l (system_array st) -> is_Some (system_heap st !! l)) ->
    exists st',
      manager_run_body event st = Done st' /\
      system_array st' = system_array st /\
      event_queue st' = event_queue st /\
      (terminates event r ->
       simulation_running st' = 0 /\
       modes_assigned (system_array st) MODE_TERMINATE event
         (system_heap st) (system_heap st')) /\
      (~ terminates event r ->
       simulation_running st' = simulation_running st /\
       target_mode event <> MODE_TERMINATE /\
       modes_assigned (system_array st) (target_mode event) event
         (system_heap st) (system_heap st')).
Proof.
  intros event st s0 r Hprio Hsys Hres Hall.
  unfold manager_run_body. rewrite Hsys. cbn [mbind result_bind].
  destruct (Z.eqb_spec (priority event) PRIORITY_IGN) as [|_]; [contradiction|].
  set (st0 := emit _ st).
  unfold display_event.
  rewrite (deref_system_same st st0 _ s0 Hsys eq_refl).
  rewrite (deref_resource_same st st0 _ r Hres eq_refl).
  cbn [mbind result_bind].
  set (st1 := emit _ st0).
  rewrite !(status_and_name_Done st1 event _ _ r)
    by (apply (deref_resource_same st); [exact Hres | reflexivity]).
  cbn [mbind result_bind].
  pose proof (terminates_flags event r) as Hterm.
  pose proof (target_mode_not_terminate event) as Htarget.
  unfold target_mode in *.
  set (b1 := (status event =? EVENT_INSUFFICIENT) && String.eqb (name r) "Oxygen") in *.
  set (b2 := (status event =? EVENT_CAPACITY) && String.eqb (name r) "Distance") in *.
  assert (Hupd : forall m st2,
    system_heap st2 = system_heap st -> system_array st2 = system_array st ->
    event_queue st2 = event_queue st ->
    exists st',
      (update_systems m event (system_array st2) st2 ≫=
         fun st3 => Done (emit manager_wait st3)) = Done st' /\
      system_array st' = system_array st /\
      event_queue st' = event_queue st /\
      simulation_running st' = simulation_running st2 /\
      modes_assigned (system_array st) m event (system_heap st) (system_heap st')).
  { intros m st2 Hh Ha Hq.
    destruct (update_systems_modes m event (system_array st2) st2)
      as (st3 & Hrun & Hst3 & Hmodes).
    { rewrite Ha, Hh. exact Hall. }
    rewrite Hrun. cbn [mbind result_bind].
    exists (emit manager_wait st3). split; [reflexivity|].
    rewrite Hst3. cbn. rewrite Ha, Hh in Hmodes. auto. }
  destruct b1.
  - destruct (Hupd MODE_TERMINATE
                (set_simulation_running 0
                   (emit (Out_printf "Oxygen depleted. Terminating all systems.")
                      (display_finish_sim st1))) eq_refl eq_refl eq_refl)
      as (st' & Hrun & Ha & Hq & Hr & Hm).
    exists st'. split; [exact Hrun|]. split; [exact Ha|]. split; [exact Hq|]. split.
    + intros _. split; [exact Hr | exact Hm].
    + intros Hn. elim Hn. apply Hterm. reflexivity.
  - destruct b2.
    + destruct (Hupd MODE_TERMINATE
                  (set_simulation_running 0
                     (emit (Out_printf "Destination reached. Terminating all systems.")
                        (display_finish_sim st1))) eq_refl eq_refl eq_refl)
        as (st' & Hrun & Ha & Hq & Hr & Hm).
      exists st'. split; [exact Hrun|]. split; [exact Ha|]. split; [exact Hq|]. split.
      * intros _. split; [exact Hr | exact Hm].
      * intros Hn. elim Hn. apply Hterm. reflexivity.
    + assert (Hnot : ~ terminates event r)
        by (intros Ht; apply Hterm in Ht; discriminate).
      destruct ((status event =? EVENT_LOW) || (status event =? EVENT_INSUFFICIENT)).
      * destruct (Hupd MODE_FAST st1 eq_refl eq_refl eq_refl) as (st' & Hrun & Ha & Hq & Hr & Hm).
        exists st'. split; [exact Hrun|]. split; [exact Ha|]. split; [exact Hq|].
        split; [intros Ht; contradiction|]. intros _. auto.
      * destruct ((status event =? EVENT_CAPACITY) || (status event =? EVENT_HIGH)).
        -- destruct (Hupd MODE_SLOW st1 eq_refl eq_refl eq_refl) as (st' & Hrun & Ha & Hq & Hr & Hm).
           exists st'. split; [exact Hrun|]. split; [exact Ha|]. split; [exact Hq|].
           split; [intros Ht; contradiction|]. intros _. auto.
        -- destruct (Hupd MODE_STANDARD st1 eq_refl eq_refl eq_refl)
             as (st' & Hrun & Ha & Hq & Hr & Hm).
           exists st'. split; [exact Hrun|]. split; [exact Ha|]. split; [exact Hq|].
           split; [intros Ht; contradiction|]. intros _. auto.
Qed.

(** C3. [manager_run] on a queue whose head is an event that is not of
    the IGNORED tier (the simulation running, the pointers of the event
    and of the system array valid).  The loop pops this event and goes
    on with the rest of the queue, from a state in which: if the event
    is Insufficient for "Oxygen" or Capacity for "Distance",
    [simulation_running] is 0, every system of the array that was not in
    Terminate is in Terminate, and the loop stops there; otherwise
    [simulation_running] is unchanged and the target mode (Fast for Low
    or Insufficient, Slow for Capacity or High, Standard otherwise) is
    assigned to exactly the systems of the array that are not in
    Terminate and whose recipe output is the event's resource.  Nothing
    else of a system changes, and no other system changes.  This holds
    of the loop from any state, and of [manager_run] itself. *)
Theorem manager_decision :
  forall (fuel : nat) (event0 event : Event) (q : list Event) (st : State)
         (s0 : System) (r : Resource),
    simulation_running st <> 0 ->
    event_queue st = event :: q ->
    priority event <> PRIORITY_IGN ->
    deref_system st (system event) = Done s0 ->
    deref_resource st (resource event) = Done r ->
    (forall l, In l (system_array st) -> is_Some (system_heap st !! l)) ->
    let decided (run : result State) :=
      exists st',
        run = manager_run_loop fuel event st' /\
        event_queue st' = q /\
        system_array st' = system_array st /\
        (terminates event r ->
         simulation_running st' = 0 /\
         modes_assigned (system_array st) MODE_TERMINATE event
           (system_heap st) (system_heap st') /\
         forall fuel', manager_run_loop (S fuel') event st' = Done st') /\
        (~ terminates event r ->
         simulation_running st' = simulation_running st /\
         target_mode event <> MODE_TERMINATE /\
         modes_assigned (system_array st) (target_mode event) event
           (system_heap st) (system_heap st')) in
    event_queue_pop (event_queue st) event0 = (1, q, event) /\
    decided (manager_run_loop (S fuel) event0 st) /\
    decided (manager_run (S fuel) st).
Proof.
  intros fuel event0 event q st s0 r Hrun Hq Hprio Hsys Hres Hall decided.
  assert (Hgen : forall start ev0,
    system_heap start = system_heap st ->
    resource_heap start = resource_heap st ->
    system_array start = system_array st ->
    event_queue start = event :: q ->
    simulation_running start = simulation_running st ->
    decided (manager_run_loop (S fuel) ev0 start)).
  { intros start ev0 Hh Hrh Ha Hq' Hr'.
    rewrite (manager_run_loop_pops fuel ev0 event q start)
      by (rewrite ?Hr'; assumption).
    destruct (manager_run_body_decision event (set_event_queue q start) s0 r)
      as (st' & Hbody & Ha' & Hq1 & Hyes & Hno).
    { exact Hprio. }
    { apply (deref_system_same st); [exact Hsys | exact Hh]. }
    { apply (deref_resource_same st); [exact Hres | exact Hrh]. }
    { intros l Hl.
      change (system_heap (set_event_queue q start)) with (system_heap start).
      change (system_array (set_event_queue q start)) with (system_array start) in Hl.
      rewrite Hh. rewrite Ha in Hl. apply Hall, Hl. }
    change (system_heap (set_event_queue q start)) with (system_heap start) in Hyes, Hno.
    change (system_array (set_event_queue q start)) with (system_array start)
      in Ha', Hyes, Hno.
    change (simulation_running (set_event_queue q start))
      with (simulation_running start) in Hno.
    rewrite Hh, Ha in Hyes, Hno. rewrite Hr' in Hno.
    rewrite Hbody. cbn [mbind result_bind].
    exists st'. split; [reflexivity|]. split; [exact Hq1|].
    split; [rewrite Ha'; exact Ha|]. split.
    - intros Ht. destruct (Hyes Ht) as [H0 Hm].
      split; [exact H0|]. split; [exact Hm|].
      intros fuel'. cbn [manager_run_loop]. rewrite H0. reflexivity.
    - exact Hno. }
  split; [rewrite Hq; reflexivity|].
  split; [apply Hgen; auto|].
  unfold manager_run. apply Hgen; auto.
Qed.

(** The crew has reported Insufficient for Oxygen in the scenario of
    [load_data]: [manager_run] pops the event, the simulation stops and
    all four systems are set to Terminate. *)
Lemma manager_decision_oxygen :
  let event := event_init (Some crew_loc) (Some oxygen_loc) EVENT_INSUFFICIENT in
  let st := push_event event initial_state in
  let r := resource_create "Oxygen" 20 50 in
  let event0 := mkEvent None None 0 0 in
  let decided (run : result State) :=
    exists st',
      run = manager_run_loop 1 event st' /\
      event_queue st' = [] /\
      system_array st' = system_array st /\
      (terminates event r ->
       simulation_running st' = 0 /\
       modes_assigned (system_array st) MODE_TERMINATE event
         (system_heap st) (system_heap st') /\
       forall fuel', manager_run_loop (S fuel') event st' = Done st') /\
      (~ terminates event r ->
       simulation_running st' = simulation_running st /\
       target_mode event <> MODE_TERMINATE /\
       modes_assigned (system_array st) (target_mode event) event
         (system_heap st) (system_heap st')) in
  event_queue_pop (event_queue st) event0 = (1, [], event) /\
  decided (manager_run_loop 2 event0 st) /\
  decided (manager_run 2 st).
Proof.
  intros event st r event0.
  apply (manager_decision 1 event0 event [] st
           (system_create "Crew" (recipe_init (Some oxygen_loc) None 5 0 200)) r).
  - vm_compute. discriminate.
  - reflexivity.
  - vm_compute. discriminate.
  - reflexivity.
  - reflexivity.
  - intros l Hl. vm_compute in Hl.
    destruct Hl as [<-|[<-|[<-|[<-|[]]]]]; eexists; reflexivity.
Defined.

(** ** Ignored events *)

(** C7, as the code has it. When the popped event is of the IGNORED tier
    (and its system pointer is valid, for the line that [manager_run]
    prints at every pop), the iteration ends at the [continue]: no system,
    no resource, neither the running flag nor the queue changes, and the
    only output is the line "Manager: Event popped ..."; [display_event]
    is not called. *)
Theorem ignored_event_discarded :
  forall (event : Event) (st : State) (s0 : System),
    priority event = PRIORITY_IGN ->
    deref_system st (system event) = Done s0 ->
    exists st',
      manager_run_body event st = Done st' /\
      system_heap st' = system_heap st /\
      simulation_running st' = simulation_running st /\
      resource_heap st' = resource_heap st /\
      event_queue st' = event_queue st /\
      trace st' = trace st ++ [Out_printf ("Manager: Event popped " +:+ sys_name s0)].
Proof.
  intros event st s0 Hprio Hsys.
  unfold manager_run_body. rewrite Hsys. cbn [mbind result_bind].
  rewrite Hprio, Z.eqb_refl.
  eexists. split; [reflexivity|]. repeat split.
Qed.

Lemma ignored_event_discarded_produced :
  let event := event_init (Some propulsion_loc) (Some fuel_loc) EVENT_PRODUCED in
  let st := initial_state in
  exists st',
    manager_run_body event st = Done st' /\
    system_heap st' = system_heap st /\
    simulation_running st' = simulation_running st /\
    resource_heap st' = resource_heap st /\
    event_queue st' = event_queue st /\
    trace st' = trace st ++ [Out_printf "Manager: Event popped Propulsion"].
Proof.
  intros event st.
  apply (ignored_event_discarded event st
           (system_create "Propulsion"
              (recipe_init (Some fuel_loc) (Some distance_loc) 5 25 500)));
    reflexivity.
Defined.

(** C7 as stated fails: [manager_run] pops a Produced event, which is of
    the IGNORED tier, and nothing reaches [display_event]. *)
Lemma ignored_event_not_displayed :
  let event := event_init (Some propulsion_loc) (Some fuel_loc) EVENT_PRODUCED in
  let st := push_event event initial_state in
  priority event = PRIORITY_IGN /\
  event_queue st = [event] /\
  exists st',
    manager_run 2 st = Done st' /\
    event_queue st' = [] /\
    trace st' = [Out_display_state; Out_printf "Manager: Event popped Propulsion"] /\
    forall sysname resname status_str,
      ~ In (Out_display_event sysname resname status_str) (trace st').
Proof.
  intros event st. split; [reflexivity|]. split; [reflexivity|].
  eexists. split; [reflexivity|]. split; [reflexivity|]. split; [reflexivity|].
  intros a b c [H|[H|[]]]; discriminate.
Qed.

(** ** Terminate is absorbing *)

(** C4. A system whose mode is Terminate keeps it, and is otherwise
    unchanged, through any iteration of [manager_run] on any event,
    through any run of [manager_run] and of the manager's thread, however
    each of these ends; and its own loops stop at their next check of the
    mode: the loop of [system_thread] and the two loops of [system_run]
    return at once, in the same state. *)
Theorem terminate_absorbing :
  forall (st : State) (l : nat) (s : System),
    system_heap st !! l = Some s ->
    mode s = MODE_TERMINATE ->
    (forall event, system_heap (final id (manager_run_body event st)) !! l = Some s) /\
    (forall fuel, system_heap (final id (manager_run fuel st)) !! l = Some s) /\
    (forall fuel, system_heap (final id (manager_thread fuel st)) !! l = Some s) /\
    (forall fuel, system_thread (S fuel) (Some l) st = Done st) /\
    (forall fuel amt, pull_loop (S fuel) l amt st = Done (st, Some amt)) /\
    (forall fuel amt, push_loop (S fuel) l amt st = Done (st, true)).
Proof.
  intros st l s Hs Hm.
  split; [intros event; apply (manager_run_body_frame event st); assumption|].
  split; [intros fuel; apply (manager_run_frame fuel st); assumption|].
  split; [intros fuel; apply (manager_thread_frame fuel st); assumption|].
  split; [|split].
  - intros fuel. cbn [system_thread system_thread_loop].
    unfold system_get_mode, deref_system. rewrite Hs. cbn [mbind result_bind].
    rewrite Hm. reflexivity.
  - intros fuel amt. cbn [pull_loop].
    unfold system_get_mode, deref_system. rewrite Hs. cbn [mbind result_bind].
    rewrite Hm. destruct (amt >? 0); reflexivity.
  - intros fuel amt. cbn [push_loop].
    unfold system_get_mode, deref_system. rewrite Hs. cbn [mbind result_bind].
    rewrite Hm. destruct (output (recipe s)); [|reflexivity].
    destruct (amt >? 0); reflexivity.
Qed.

Lemma terminate_absorbing_crew :
  let st := oxygen_depleted_state in
  let l := crew_loc in
  let s := with_mode MODE_TERMINATE
             (system_create "Crew" (recipe_init (Some oxygen_loc) None 5 0 200)) in
  (forall event, system_heap (final id (manager_run_body event st)) !! l = Some s) /\
  (forall fuel, system_heap (final id (manager_run fuel st)) !! l = Some s) /\
  (forall fuel, system_heap (final id (manager_thread fuel st)) !! l = Some s) /\
  (forall fuel, system_thread (S fuel) (Some l) st = Done st) /\
  (forall fuel amt, pull_loop (S fuel) l amt st = Done (st, Some amt)) /\
  (forall fuel amt, push_loop (S fuel) l amt st = Done (st, true)).
Proof.
  intros st l s.
  apply (terminate_absorbing st l s); reflexivity.
Defined.

(** ** The resource invariant *)

Lemma transfer_step_ok h h' : transfer_step h h' -> heap_ok h -> heap_ok h'.
Proof.
  intros Hstep Hok l' r'.
  destruct Hstep as [l r req Hl Hreq | l r req Hl Hreq];
    (destruct (decide (l = l')) as [->|Hne];
     [rewrite lookup_insert_eq; intros [= <-]
     |rewrite lookup_insert_ne by exact Hne; apply Hok]).
  - apply transfer_into_ok; [eapply Hok; exact Hl | exact Hreq].
  - apply transfer_from_ok; [eapply Hok; exact Hl | exact Hreq].
Qed.

Lemma transfer_steps_ok h h' : rtc transfer_step h h' -> heap_ok h -> heap_ok h'.
Proof.
  induction 1 as [|h1 h2 h3 Hstep _ IH]; [auto|].
  intros Hok. apply IH. eapply transfer_step_ok; eassumption.
Qed.

(** C5. The transfers keep a resource within 0 and its capacity, for any
    request that is not negative.  Nothing else writes an amount: a run
    of a system, or of its thread, changes the heap of resources by
    transfers only, so it keeps the invariant of every resource, however
    the run ends; a run of the manager, or of its thread, leaves the heap
    of resources as it was. *)
Theorem resource_invariant_preserved :
  (forall (r : Resource) (requested : Z),
     0 <= amount r <= max_capacity r -> in_int (max_capacity r) ->
     0 <= requested ->
     let r1 := fst (resource_transfer_into r requested) in
     let r2 := fst (resource_transfer_from r requested) in
     (0 <= amount r1 <= max_capacity r1 /\ max_capacity r1 = max_capacity r) /\
     (0 <= amount r2 <= max_capacity r2 /\ max_capacity r2 = max_capacity r)) /\
  (forall fuel system st,
     by_transfers st (final id (system_run fuel system st)) /\
     (heap_ok (resource_heap st) ->
      heap_ok (resource_heap (final id (system_run fuel system st))))) /\
  (forall fuel arg st,
     by_transfers st (final id (system_thread fuel arg st)) /\
     (heap_ok (resource_heap st) ->
      heap_ok (resource_heap (final id (system_thread fuel arg st))))) /\
  (forall fuel st,
     resource_heap (final id (manager_run fuel st)) = resource_heap st) /\
  (forall fuel st,
     resource_heap (final id (manager_thread fuel st)) = resource_heap st).
Proof.
  split; [|split; [|split; [|split]]].
  - intros r req Ha Hm Hreq r1 r2.
    assert (Hok : resource_ok r) by (split; assumption).
    split.
    + split; [apply (transfer_into_ok r req Hok Hreq) | reflexivity].
    + split; [apply (transfer_from_ok r req Hok Hreq) | reflexivity].
  - intros fuel system st.
    pose proof (proj1 (system_run_frame fuel system st)) as H.
    split; [exact H | apply transfer_steps_ok, H].
  - intros fuel arg st.
    pose proof (proj1 (system_thread_frame fuel arg st)) as H.
    split; [exact H | apply transfer_steps_ok, H].
  - intros fuel st. apply (manager_run_frame fuel st).
  - intros fuel st. apply (manager_thread_frame fuel st).
Qed.

Lemma initial_heap_ok : heap_ok (resource_heap initial_state).
Proof.
  intros l r. unfold initial_state, load_data. cbn [resource_heap manager_init empty_state].
  rewrite !lookup_insert. repeat case_decide; try (rewrite lookup_empty; discriminate);
    intros [= <-]; vm_compute; repeat split; discriminate.
Qed.

(** One cycle of Propulsion in the scenario: Fuel 1000 to 995, Distance 0
    to 25, both within their capacity of 1000. *)
Lemma resource_invariant_preserved_propulsion :
  let st' := final id (system_run 5 propulsion_loc initial_state) in
  heap_ok (resource_heap st') /\
  amount <$> resource_heap st' !! fuel_loc = Some 995 /\
  amount <$> resource_heap st' !! distance_loc = Some 25.
Proof.
  intros st'. split; [|split; reflexivity].
  destruct resource_invariant_preserved as (_ & Hrun & _).
  apply (Hrun 5%nat propulsion_loc initial_state), initial_heap_ok.
Defined.

(** ** The cycle of a system *)

(** C6. The first loop of [system_run] is guarded by [amount_to_pull] and
    the mode, not by the input pointer: for a system that has no input
    resource, a positive [input_amount] and a mode other than Terminate,
    the cycle calls [resource_transfer_from] on the null pointer and stops
    there, before any event or processing. *)
Theorem system_run_no_input_crashes :
  forall (fuel : nat) (st : State) (l : nat) (s : System),
    system_heap st !! l = Some s ->
    input (recipe s) = None ->
    0 < input_amount (recipe s) ->
    mode s <> MODE_TERMINATE ->
    system_run (S fuel) l st = Crash st.
Proof.
  intros fuel st l s Hs Hin Hamt Hm.
  unfold system_run, deref_system. rewrite Hs. cbn [mbind result_bind pull_loop].
  destruct (Z.gtb_spec (input_amount (recipe s)) 0) as [_|]; [|lia].
  unfold system_get_mode, deref_system. rewrite Hs. cbn [mbind result_bind].
  destruct (Z.eqb_spec (mode s) MODE_TERMINATE) as [|_]; [contradiction|].
  cbn [negb]. rewrite Hin. reflexivity.
Qed.

Lemma system_run_no_input_crashes_solar :
  system_run 3 solar_loc solar_state = Crash solar_state.
Proof.
  apply (system_run_no_input_crashes 2 solar_state solar_loc
           (system_create "Solar" (recipe_init None (Some energy_loc) 5 9 100)));
    [reflexivity | reflexivity | reflexivity | vm_compute; discriminate].
Defined.


(** ** Processing delay *)

Lemma transfer_from_enough r amt :
  amt <= amount r -> snd (resource_transfer_from r amt) = 0.
Proof.
  intros H. unfold resource_transfer_from. cbn [snd].
  destruct (Z.ltb_spec (amount r) amt) as [|_]; [lia|].
  unfold int_sub. rewrite Z.sub_diag. reflexivity.
Qed.

Lemma pull_loop_enough fuel st l s i r :
  system_heap st !! l = Some s ->
  mode s <> MODE_TERMINATE ->
  input (recipe s) = Some i ->
  resource_heap st !! i = Some r ->
  0 < input_amount (recipe s) <= amount r ->
  pull_loop (S (S fuel)) l (input_amount (recipe s)) st =
    Done (set_resource_heap
            (<[i := fst (resource_transfer_from r (input_amount (recipe s)))]>
               (resource_heap st)) st, Some 0).
Proof.
  intros Hs Hm Hin Hr Hamt. cbn [pull_loop].
  destruct (Z.gtb_spec (input_amount (recipe s)) 0) as [_|]; [|lia].
  unfold system_get_mode, deref_system. rewrite Hs. cbn [mbind result_bind].
  destruct (Z.eqb_spec (mode s) MODE_TERMINATE) as [|_]; [contradiction|].
  cbn [negb]. rewrite Hin. unfold transfer_from_at, deref_resource. rewrite Hr.
  cbn [mbind result_bind].
  pose proof (transfer_from_enough r (input_amount (recipe s)) ltac:(lia)) as E.
  destruct (resource_transfer_from r (input_amount (recipe s))) as [r' amt'].
  cbn [fst snd] in *. subst amt'. reflexivity.
Qed.




(** ** Events of a cycle *)

#[local] Instance emits_preorder l s : PreOrder (emits l s).
Proof.
  split.
  - intros st Hs. auto.
  - intros a b c Hab Hbc Hs.
    destruct (Hab Hs) as (Hb & Hab1 & Hab2).
    destruct (Hbc Hb) as (Hc & Hbc1 & Hbc2).
    split; [exact Hc|]. split; [auto|].
    intros e He. destruct (Hbc2 e He) as [He'|]; auto.
Qed.

Lemma push_event_In e event st :
  In e (event_queue (push_event event st)) <-> e = event \/ In e (event_queue st).
Proof.
  unfold push_event. cbn [event_queue set_event_queue].
  rewrite event_queue_push_walk. apply push_walk_In.
Qed.

Lemma emits_same l s st st' :
  system_heap st' = system_heap st -> event_queue st' = event_queue st ->
  emits l s st st'.
Proof. intros H1 H2 Hs. rewrite H1, H2. auto. Qed.

Lemma emits_push l s event st st' :
  (system_heap st !! l = Some s -> emitted_by l s event) ->
  system_heap st' = system_heap st ->
  event_queue st' = event_queue (push_event event st) ->
  emits l s st st'.
Proof.
  intros Hev H1 H2 Hs. rewrite H1, H2. split; [exact Hs|]. split.
  - intros e He. apply push_event_In. right; exact He.
  - intros e He. apply push_event_In in He. destruct He as [->|He]; auto.
Qed.

Lemma deref_system_Some st l s :
  deref_system st (Some l) = Done s -> system_heap st !! l = Some s.
Proof.
  unfold deref_system. destruct (system_heap st !! l); congruence.
Qed.

Lemma transfer_from_at_emits l s st p amt :
  stops (emits l s) fst st (transfer_from_at st p amt).
Proof.
  unfold transfer_from_at. destruct p as [i|]; [|stop_now].
  apply stops_deref_resource; [typeclasses eauto|]. intros r Hr.
  destruct (resource_transfer_from r amt) as [r' amt'].
  apply stops_Done, emits_same; reflexivity.
Qed.

Lemma transfer_into_at_emits l s st p amt :
  stops (emits l s) fst st (transfer_into_at st p amt).
Proof.
  unfold transfer_into_at. destruct p as [i|]; [|stop_now].
  apply stops_deref_resource; [typeclasses eauto|]. intros r Hr.
  destruct (resource_transfer_into r amt) as [r' amt'].
  apply stops_Done, emits_same; reflexivity.
Qed.

Lemma pull_loop_emits l s fuel : forall amt st,
  stops (emits l s) fst st (pull_loop fuel l amt st).
Proof.
  induction fuel as [|fuel IH]; intros amt st; cbn [pull_loop]; [stop_now|].
  destruct (amt >? 0); [|stop_now].
  apply stops_get_mode; [typeclasses eauto|]. intros s0 Hs0.
  destruct (negb (mode s0 =? MODE_TERMINATE)); [|stop_now].
  apply stops_deref_system; [typeclasses eauto|]. intros s' Hs'.
  apply deref_system_Some in Hs'.
  eapply (stops_bind _ fst); [apply transfer_from_at_emits|].
  intros [st1 amt'] Hrun. cbn [fst].
  destruct (amt' >? 0); [|apply IH].
  assert (Hpush : emits l s st1
            (emit system_wait
               (push_event (event_init (Some l) (input (recipe s')) EVENT_INSUFFICIENT)
                  st1))).
  { pose proof (transfer_from_at_emits l s' st (input (recipe s')) amt) as Hst1.
    rewrite Hrun in Hst1. unfold stops in Hst1. cbn [final fst] in Hst1.
    destruct (Hst1 Hs') as (Hs1 & _).
    eapply emits_push; [|reflexivity..].
    intros Hs. assert (s' = s) by congruence. subst s'. left; reflexivity. }
  destruct (negb (SINGLE_THREAD_MODE =? 0)).
  - apply stops_Done. exact Hpush.
  - eapply stops_from; [typeclasses eauto | exact Hpush | apply IH].
Qed.

Lemma system_simulate_process_time_emits l s st :
  stops (emits l s) id st (system_simulate_process_time st l).
Proof.
  unfold system_simulate_process_time.
  apply stops_deref_system; [typeclasses eauto|]. intros s' Hs'.
  apply stops_Done, emits_same; reflexivity.
Qed.

Lemma process_step_emits l s amt st :
  stops (emits l s) fst st (process_step l amt st).
Proof.
  unfold process_step. destruct (amt =? 0); [|stop_now].
  eapply (stops_bind _ id); [apply system_simulate_process_time_emits|].
  intros st1 _. unfold id at 1.
  apply stops_deref_system; [typeclasses eauto|]. intros s' Hs'.
  apply deref_system_Some in Hs'.
  apply stops_Done. eapply emits_push; [|reflexivity..].
  intros Hs. assert (s' = s) by congruence. subst s'. right; left; reflexivity.
Qed.

Lemma push_loop_emits l s fuel : forall amt st,
  stops (emits l s) fst st (push_loop fuel l amt st).
Proof.
  induction fuel as [|fuel IH]; intros amt st; cbn [push_loop]; [stop_now|].
  apply stops_deref_system; [typeclasses eauto|]. intros s' Hs'.
  apply deref_system_Some in Hs'.
  destruct (output (recipe s')) as [o|] eqn:Ho; [|stop_now].
  destruct (amt >? 0); [|stop_now].
  apply stops_get_mode; [typeclasses eauto|]. intros s0 Hs0.
  destruct (negb (mode s0 =? MODE_TERMINATE)); [|stop_now].
  eapply (stops_bind _ fst); [apply transfer_into_at_emits|].
  intros [st1 amt'] Hrun. cbn [fst].
  destruct (amt' >? 0); [|apply IH].
  assert (Hpush : emits l s st1
            (emit system_wait
               (push_event (event_init (Some l) (Some o) EVENT_CAPACITY) st1))).
  { pose proof (transfer_into_at_emits l s' st (Some o) amt) as Hst1.
    rewrite Hrun in Hst1. unfold stops in Hst1. cbn [final fst] in Hst1.
    destruct (Hst1 Hs') as (Hs1 & _).
    eapply emits_push; [|reflexivity..].
    intros Hs. assert (s' = s) by congruence. subst s'.
    right; right; left. rewrite Ho. reflexivity. }
  destruct (negb (SINGLE_THREAD_MODE =? 0)).
  - apply stops_Done. exact Hpush.
  - eapply stops_from; [typeclasses eauto | exact Hpush | apply IH].
Qed.

Lemma report_recipe_thresholds_emits l s st :
  stops (emits l s) id st (report_recipe_thresholds st l).
Proof.
  unfold report_recipe_thresholds.
  apply stops_deref_system; [typeclasses eauto|]. intros s' Hs'.
  apply deref_system_Some in Hs'.
  destruct (input (recipe s')) as [i|] eqn:Hi; [|stop_now].
  apply stops_deref_resource; [typeclasses eauto|]. intros r Hr.
  destruct (_ <=? _).
  { apply stops_Done. eapply emits_push; [|reflexivity..].
    intros Hs. assert (s' = s) by congruence. subst s'.
    right; right; right; left. rewrite Hi. reflexivity. }
  destruct (_ >? _); [|stop_now].
  apply stops_Done. eapply emits_push; [|reflexivity..].
  intros Hs. assert (s' = s) by congruence. subst s'.
  right; right; right; right. rewrite Hi. reflexivity.
Qed.

Lemma system_run_emits l s fuel st :
  stops (emits l s) id st (system_run fuel l st).
Proof.
  unfold system_run.
  apply stops_deref_system; [typeclasses eauto|]. intros s' Hs'.
  eapply (stops_bind _ fst); [apply pull_loop_emits|].
  intros [st1 [amt'|]] _; cbn [fst]; [|stop_now].
  eapply (stops_bind _ fst); [apply process_step_emits|].
  intros [st2 out] _; cbn [fst].
  eapply (stops_bind _ fst); [apply push_loop_emits|].
  intros [st3 [|]] _; cbn [fst]; [|stop_now].
  apply report_recipe_thresholds_emits.
Qed.

Lemma emitted_produced l s e :
  emitted_by l s e -> status e = EVENT_PRODUCED ->
  e = event_init (Some l) (input (recipe s)) EVENT_PRODUCED.
Proof.
  intros [-> | [-> | [-> | [-> | ->]]]]; cbn [status event_init]; intros H;
    try reflexivity; vm_compute in H; discriminate.
Qed.

(** When the cycle gets to its processing step, the Produced event is in
    the queue from then on. *)
Lemma system_run_pushes_produced fuel l st s :
  system_heap st !! l = Some s ->
  reaches_processing fuel l st ->
  In (event_init (Some l) (input (recipe s)) EVENT_PRODUCED)
     (event_queue (final id (system_run fuel l st))).
Proof.
  intros Hs (s' & st1 & Hs' & Hpull).
  assert (s' = s) by congruence. subst s'.
  pose proof (pull_loop_emits l s fuel (input_amount (recipe s)) st) as H1.
  rewrite Hpull in H1. unfold stops in H1. cbn [final fst] in H1.
  destruct (H1 Hs) as (Hs1 & _).
  unfold system_run, deref_system. rewrite Hs. cbn [mbind result_bind].
  rewrite Hpull. cbn [mbind result_bind].
  unfold process_step. change (0 =? 0) with true. cbv iota.
  unfold system_simulate_process_time, deref_system.
  rewrite Hs1. cbn [mbind result_bind].
  set (st1' := emit _ st1).
  change (system_heap st1' !! l) with (system_heap st1 !! l).
  rewrite Hs1. cbn [mbind result_bind].
  set (produced := event_init (Some l) (input (recipe s)) EVENT_PRODUCED).
  set (st2 := push_event produced st1').
  assert (Hin2 : In produced (event_queue st2))
    by (apply push_event_In; left; reflexivity).
  assert (Hs2 : system_heap st2 !! l = Some s) by exact Hs1.
  pose proof (push_loop_emits l s fuel (output_amount (recipe s)) st2) as H3.
  unfold stops in H3. destruct (H3 Hs2) as (Hs3 & Hkeep3 & _).
  destruct (push_loop fuel l (output_amount (recipe s)) st2) as [[st3 [|]]|st3|st3];
    cbn [mbind result_bind final fst id] in *; try (apply Hkeep3, Hin2).
  pose proof (report_recipe_thresholds_emits l s st3) as H4.
  unfold stops in H4. destruct (H4 Hs3) as (_ & Hkeep4 & _).
  apply Hkeep4, Hkeep3, Hin2.
Qed.

(** C10, as the code has it. Whatever a cycle of [system_run] adds to the
    queue is an event that this system builds; so every Produced event
    it adds has the recipe's input as its resource, and it refers to the
    resource that is produced, the recipe's output, only when input and
    output are the same pointer.  When the cycle gets to its processing
    step, that Produced event is in the queue. *)
Theorem produced_event_carries_input :
  forall (fuel : nat) (l : nat) (st : State) (s : System),
    system_heap st !! l = Some s ->
    let st' := final id (system_run fuel l st) in
    (forall e, In e (event_queue st') ->
               In e (event_queue st) \/ emitted_by l s e) /\
    (forall e, In e (event_queue st') -> ~ In e (event_queue st) ->
               status e = EVENT_PRODUCED ->
               resource e = input (recipe s) /\
               (resource e = output (recipe s) <->
                input (recipe s) = output (recipe s))) /\
    (reaches_processing fuel l st ->
     In (event_init (Some l) (input (recipe s)) EVENT_PRODUCED) (event_queue st')).
Proof.
  intros fuel l st s Hs st'.
  destruct (system_run_emits l s fuel st Hs) as (_ & _ & Hnew).
  split; [exact Hnew|]. split.
  - intros e He Hold Hst.
    destruct (Hnew e He) as [|Hem]; [contradiction|].
    rewrite (emitted_produced l s e Hem Hst). cbn [resource event_init].
    split; [reflexivity|]. split; auto.
  - apply system_run_pushes_produced, Hs.
Qed.

Lemma produced_event_carries_input_propulsion :
  let l := propulsion_loc in
  let st := initial_state in
  let s := system_create "Propulsion"
             (recipe_init (Some fuel_loc) (Some distance_loc) 5 25 500) in
  let st' := final id (system_run 2 l st) in
  (forall e, In e (event_queue st') ->
             In e (event_queue st) \/ emitted_by l s e) /\
  (forall e, In e (event_queue st') -> ~ In e (event_queue st) ->
             status e = EVENT_PRODUCED ->
             resource e = input (recipe s) /\
             (resource e = output (recipe s) <->
              input (recipe s) = output (recipe s))) /\
  (reaches_processing 2 l st ->
   In (event_init (Some l) (input (recipe s)) EVENT_PRODUCED) (event_queue st')).
Proof.
  intros l st s.
  apply (produced_event_carries_input 2 l st s). reflexivity.
Defined.

(** C10 as stated fails in its second half: for a recipe whose input and
    output are the same resource, the Produced event refers to the
    resource that the cycle has just produced into. *)
Lemma produced_event_refers_to_output :
  let s := system_create "Filter"
             (recipe_init (Some fuel_loc) (Some fuel_loc) 5 3 100) in
  system_heap filter_state !! filter_loc = Some s /\
  exists st' e,
    system_run 2 filter_loc filter_state = Done st' /\
    In e (event_queue st') /\
    status e = EVENT_PRODUCED /\
    resource e = output (recipe s) /\
    amount <$> resource_heap st' !! fuel_loc = Some 998.
Proof.
  intros s. split; [reflexivity|].
  eexists _, (event_init (Some filter_loc) (Some fuel_loc) EVENT_PRODUCED).
  split; [reflexivity|]. split; [vm_compute; auto|].
  repeat split.
Qed.

(** * Further properties of the code *)

(** ** resource.c: more on the transfers *)

Lemma resource_eta r : {| name := name r; amount := amount r;
                          max_capacity := max_capacity r |} = r.
Proof. destruct r; reflexivity. Qed.

Lemma resource_ok_in_int r : resource_ok r -> in_int (amount r).
Proof.
  intros [Ha Hm]. unfold in_int, INT_MIN, INT_MAX in *. lia.
Qed.

Lemma transfer_into_full r req :
  resource_ok r -> in_int req ->
  (req = 0 \/ (0 <= req /\ amount r = max_capacity r)) ->
  resource_transfer_into r req = (r, req).
Proof.
  intros Hok Hint Hcase. pose proof (resource_ok_in_int r Hok) as Hamt.
  destruct Hok as [Ha Hm].
  unfold resource_transfer_into, int_sub, int_add.
  rewrite (wrap_small (max_capacity r - amount r))
    by (unfold in_int, INT_MIN, INT_MAX in *; lia).
  assert (E : (if max_capacity r - amount r >=? req then req
               else max_capacity r - amount r) = 0).
  { destruct (Z.geb_spec (max_capacity r - amount r) req); lia. }
  rewrite E, Z.add_0_r, Z.sub_0_r, !wrap_small by assumption.
  rewrite resource_eta. reflexivity.
Qed.

Lemma transfer_from_empty r req :
  resource_ok r -> in_int req ->
  (req = 0 \/ (0 <= req /\ amount r = 0)) ->
  resource_transfer_from r req = (r, req).
Proof.
  intros Hok Hint Hcase. pose proof (resource_ok_in_int r Hok) as Hamt.
  destruct Hok as [Ha Hm].
  unfold resource_transfer_from, int_sub.
  assert (E : (if amount r <? req then amount r else req) = 0).
  { destruct (Z.ltb_spec (amount r) req); lia. }
  rewrite E, !Z.sub_0_r, !wrap_small by assumption.
  rewrite resource_eta. reflexivity.
Qed.

(** X1. A transfer that cannot move anything changes nothing and hands
    the whole request back: a request of 0, a transfer into a full
    resource, a transfer from an empty one.  In particular, a retry with
    the residual of a transfer that fell short is such a transfer. *)
Theorem transfer_without_effect :
  forall (r : Resource) (requested : Z),
    0 <= amount r <= max_capacity r -> in_int (max_capacity r) ->
    0 <= requested -> in_int requested ->
    resource_transfer_into r 0 = (r, 0) /\
    resource_transfer_from r 0 = (r, 0) /\
    (amount r = max_capacity r -> resource_transfer_into r requested = (r, requested)) /\
    (amount r = 0 -> resource_transfer_from r requested = (r, requested)) /\
    (let '(r1, residual) := resource_transfer_into r requested in
     0 < residual -> resource_transfer_into r1 residual = (r1, residual)) /\
    (let '(r1, residual) := resource_transfer_from r requested in
     0 < residual -> resource_transfer_from r1 residual = (r1, residual)).
Proof.
  intros r req Ha Hm Hreq Hint.
  assert (Hok : resource_ok r) by (split; assumption).
  assert (H0 : in_int 0) by (unfold in_int, INT_MIN, INT_MAX; lia).
  split; [apply transfer_into_full; auto|].
  split; [apply transfer_from_empty; auto|].
  split; [intros; apply transfer_into_full; auto|].
  split; [intros; apply transfer_from_empty; auto|].
  split.
  - pose proof (transfer_into_ok r req Hok Hreq) as Hok1.
    pose proof (transfer_into_amount r req Hok Hreq) as Hamt.
    pose proof (transfer_into_residual r req Hok Hreq Hint) as Hres.
    destruct (resource_transfer_into r req) as [r1 res] eqn:E.
    cbn [fst snd] in *. intros Hpos.
    apply transfer_into_full; [exact Hok1 | |].
    + unfold in_int, INT_MIN, INT_MAX in *. lia.
    + right. split; [lia|].
      assert (max_capacity r1 = max_capacity r)
        by (change r1 with (fst (r1, res)); rewrite <- E; reflexivity).
      lia.
  - pose proof (transfer_from_ok r req Hok Hreq) as Hok1.
    pose proof (transfer_from_amount r req Hok Hreq) as Hamt.
    pose proof (transfer_from_residual r req Hok Hreq Hint) as Hres.
    destruct (resource_transfer_from r req) as [r1 res] eqn:E.
    cbn [fst snd] in *. intros Hpos.
    apply transfer_from_empty; [exact Hok1 | |].
    + unfold in_int, INT_MIN, INT_MAX in *. lia.
    + right. split; lia.
Qed.

(** Oxygen at 45 of 50 takes 5 of 9; the 4 left over do not go in at a
    second try. *)
Lemma transfer_without_effect_oxygen :
  let r := resource_create "Oxygen" 45 50 in
  resource_transfer_into r 0 = (r, 0) /\
  resource_transfer_from r 0 = (r, 0) /\
  (amount r = max_capacity r -> resource_transfer_into r 9 = (r, 9)) /\
  (amount r = 0 -> resource_transfer_from r 9 = (r, 9)) /\
  (let '(r1, residual) := resource_transfer_into r 9 in
   0 < residual -> resource_transfer_into r1 residual = (r1, residual)) /\
  (let '(r1, residual) := resource_transfer_from r 9 in
   0 < residual -> resource_transfer_from r1 residual = (r1, residual)).
Proof.
  intros r.
  apply (transfer_without_effect r 9);
    [simpl; lia | vm_compute; split; discriminate | lia
    | vm_compute; split; discriminate].
Defined.

(** X2. Round trip: taking out what a transfer put in, or putting back
    what a transfer took out, restores the resource and leaves no
    residual. *)
Theorem transfer_round_trip :
  forall (r : Resource) (requested : Z),
    0 <= amount r <= max_capacity r -> in_int (max_capacity r) ->
    0 <= requested -> in_int requested ->
    (let '(r1, residual) := resource_transfer_into r requested in
     resource_transfer_from r1 (requested - residual) = (r, 0)) /\
    (let '(r1, residual) := resource_transfer_from r requested in
     resource_transfer_into r1 (requested - residual) = (r, 0)).
Proof.
  intros r req Ha Hm Hreq Hint.
  assert (Hok : resource_ok r) by (split; assumption).
  pose proof (resource_eta r) as Heta.
  unfold in_int, INT_MIN, INT_MAX in *.
  split.
  - pose proof (transfer_into_amount r req Hok Hreq) as Hamt.
    pose proof (transfer_into_residual r req Hok Hreq
                  ltac:(unfold in_int, INT_MIN, INT_MAX; lia)) as Hres.
    destruct (resource_transfer_into r req) as [r1 res] eqn:E.
    assert (Hn : name r1 = name r /\ max_capacity r1 = max_capacity r)
      by (change r1 with (fst (r1, res)); rewrite <- E; split; reflexivity).
    cbn [fst snd] in *. destruct Hn as [Hn1 Hn2].
    unfold resource_transfer_from, int_sub. rewrite Hn1, Hn2.
    destruct (Z.ltb_spec (amount r1) (req - res)); [lia|].
    replace (amount r1 - (req - res)) with (amount r) by lia.
    rewrite Z.sub_diag, (wrap_small (amount r))
      by (unfold in_int, INT_MIN, INT_MAX; lia).
    rewrite Heta. reflexivity.
  - pose proof (transfer_from_amount r req Hok Hreq) as Hamt.
    pose proof (transfer_from_residual r req Hok Hreq
                  ltac:(unfold in_int, INT_MIN, INT_MAX; lia)) as Hres.
    destruct (resource_transfer_from r req) as [r1 res] eqn:E.
    assert (Hn : name r1 = name r /\ max_capacity r1 = max_capacity r)
      by (change r1 with (fst (r1, res)); rewrite <- E; split; reflexivity).
    cbn [fst snd] in *. destruct Hn as [Hn1 Hn2].
    unfold resource_transfer_into, int_sub, int_add. rewrite Hn1, Hn2.
    rewrite (wrap_small (max_capacity r - amount r1))
      by (unfold in_int, INT_MIN, INT_MAX; lia).
    destruct (Z.geb_spec (max_capacity r - amount r1) (req - res)); [|lia].
    replace (amount r1 + (req - res)) with (amount r) by lia.
    rewrite Z.sub_diag, (wrap_small (amount r))
      by (unfold in_int, INT_MIN, INT_MAX; lia).
    rewrite Heta. reflexivity.
Qed.

Lemma transfer_round_trip_oxygen :
  let r := resource_create "Oxygen" 45 50 in
  (let '(r1, residual) := resource_transfer_into r 9 in
   resource_transfer_from r1 (9 - residual) = (r, 0)) /\
  (let '(r1, residual) := resource_transfer_from r 9 in
   resource_transfer_into r1 (9 - residual) = (r, 0)).
Proof.
  intros r.
  apply (transfer_round_trip r 9);
    [simpl; lia | vm_compute; split; discriminate | lia
    | vm_compute; split; discriminate].
Defined.

(** X3. The transfers do not check the sign of the request.  A negative
    request is moved in full the other way, with no clamp and a residual
    of 0: [resource_transfer_from] adds its absolute value and
    [resource_transfer_into] removes it, so the amount can pass the
    capacity or fall below 0. *)
Theorem transfer_negative_request :
  forall (r : Resource) (requested : Z),
    0 <= amount r <= max_capacity r -> in_int (max_capacity r) ->
    requested < 0 -> in_int requested ->
    in_int (amount r - requested) ->
    resource_transfer_from r requested =
      ({| name := name r; amount := amount r - requested;
          max_capacity := max_capacity r |}, 0) /\
    resource_transfer_into r requested =
      ({| name := name r; amount := amount r + requested;
          max_capacity := max_capacity r |}, 0) /\
    (max_capacity r - amount r < - requested ->
     ~ resource_ok (fst (resource_transfer_from r requested))) /\
    (amount r < - requested ->
     ~ resource_ok (fst (resource_transfer_into r requested))).
Proof.
  intros r req Ha Hm Hneg Hint Hsum.
  unfold in_int, INT_MIN, INT_MAX in *.
  assert (Hfrom : resource_transfer_from r req =
                  ({| name := name r; amount := amount r - req;
                      max_capacity := max_capacity r |}, 0)).
  { unfold resource_transfer_from, int_sub.
    destruct (Z.ltb_spec (amount r) req); [lia|].
    rewrite Z.sub_diag, wrap_small by (unfold in_int, INT_MIN, INT_MAX; lia).
    reflexivity. }
  assert (Hinto : resource_transfer_into r req =
                  ({| name := name r; amount := amount r + req;
                      max_capacity := max_capacity r |}, 0)).
  { unfold resource_transfer_into, int_sub, int_add.
    rewrite (wrap_small (max_capacity r - amount r))
      by (unfold in_int, INT_MIN, INT_MAX; lia).
    destruct (Z.geb_spec (max_capacity r - amount r) req); [|lia].
    rewrite Z.sub_diag, wrap_small by (unfold in_int, INT_MIN, INT_MAX; lia).
    reflexivity. }
  rewrite Hfrom, Hinto. split; [reflexivity|]. split; [reflexivity|].
  split; intros H [Hb _]; cbn in Hb; lia.
Qed.

(** Fuel at 1000 of 1000: a transfer from it of -5 leaves 1005. *)
Lemma transfer_negative_request_fuel :
  let r := resource_create "Fuel" 1000 1000 in
  resource_transfer_from r (-5) =
    ({| name := name r; amount := amount r - (-5);
        max_capacity := max_capacity r |}, 0) /\
  resource_transfer_into r (-5) =
    ({| name := name r; amount := amount r + (-5);
        max_capacity := max_capacity r |}, 0) /\
  (max_capacity r - amount r < - (-5) ->
   ~ resource_ok (fst (resource_transfer_from r (-5)))) /\
  (amount r < - (-5) ->
   ~ resource_ok (fst (resource_transfer_into r (-5)))).
Proof.
  intros r.
  apply (transfer_negative_request r (-5));
    [simpl; lia | vm_compute; split; discriminate | lia
    | vm_compute; split; discriminate | vm_compute; split; discriminate].
Defined.

(** ** event.c: more on events and the queue *)

Lemma land_upper_bound a b : 0 <= b -> 0 <= Z.land a b <= b.
Proof.
  intros Hb. split; [apply Z.land_nonneg; right; exact Hb|].
  assert (E : Z.ldiff b a + Z.land a b = b).
  { rewrite <- (Z.add_lor_land (Z.ldiff b a) (Z.land a b)).
    replace (Z.land (Z.ldiff b a) (Z.land a b)) with 0.
    - rewrite Z.add_0_r. rewrite (Z.land_comm a b). apply Z.lor_ldiff_and.
    - symmetry. apply Z.bits_inj'. intros n Hn.
      rewrite !Z.land_spec, Z.ldiff_spec, Z.bits_0.
      destruct (Z.testbit b n), (Z.testbit a n); reflexivity. }
  assert (0 <= Z.ldiff b a) by (apply Z.ldiff_nonneg; left; exact Hb).
  lia.
Qed.

Lemma land_low_byte code : 0 <= code < 256 -> Z.land code 0xFF00 = 0.
Proof.
  intros H.
  rewrite <- (Z.mod_small code (2 ^ 8)) by (change (2 ^ 8) with 256; lia).
  rewrite <- Z.land_ones by lia.
  rewrite <- Z.land_assoc.
  change (Z.land (Z.ones 8) 65280) with 0. apply Z.land_0_r.
Qed.

(** X4. The status codes of defs.h are a priority tier or-ed with a code
    below 0x100, and [event_init] gets the tier back: for any tier made
    of bits 8 to 15 and any such code the priority of the event is the
    tier.  Whatever the status, the priority is between 0 and 0xFF00. *)
Theorem event_init_recovers_tier :
  forall (sys res : ptr) (tier code status0 : Z),
    Z.land tier 0xFF00 = tier -> 0 <= code < 0x100 ->
    priority (event_init sys res (Z.lor tier code)) = tier /\
    status (event_init sys res (Z.lor tier code)) = Z.lor tier code /\
    0 <= priority (event_init sys res status0) <= 0xFF00.
Proof.
  intros sys res tier code status0 Htier Hcode. cbn [priority status event_init].
  split; [|split; [reflexivity | apply land_upper_bound; lia]].
  rewrite Z.land_lor_distr_l, Htier, land_low_byte by exact Hcode.
  apply Z.lor_0_r.
Qed.

Lemma event_init_recovers_tier_med :
  priority (event_init None None (Z.lor PRIORITY_MED 0x7F)) = PRIORITY_MED /\
  status (event_init None None (Z.lor PRIORITY_MED 0x7F)) = Z.lor PRIORITY_MED 0x7F /\
  0 <= priority (event_init None None (-1)) <= 0xFF00.
Proof.
  apply (event_init_recovers_tier None None PRIORITY_MED 0x7F (-1));
    [reflexivity | lia].
Defined.

Lemma push_walk_split q e :
  exists l1 l2,
    q = l1 ++ l2 /\ push_walk q e = l1 ++ e :: l2 /\
    Forall (fun x => priority e <= priority x) l1 /\
    (forall x, head l2 = Some x -> priority x < priority e).
Proof.
  induction q as [|c next IH]; simpl.
  - exists [], []. repeat split; [constructor | discriminate].
  - destruct (Z.geb_spec (priority c) (priority e)) as [Hge|Hlt].
    + destruct IH as (l1 & l2 & -> & -> & Hl1 & Hl2).
      exists (c :: l1), l2. repeat split; [constructor; [lia | exact Hl1] | exact Hl2].
    + exists [], (c :: next). repeat split; [constructor|].
      intros x [= <-]. exact Hlt.
Qed.

(** X5. [event_queue_push] links exactly one new node and moves none,
    whatever the queue holds: the queue is cut in two, the new event goes
    in between, every node before it has at least its priority and the
    node right after it, if any, has strictly less. *)
Theorem event_queue_push_position :
  forall (q : EventQueue) (e : Event),
    exists l1 l2,
      q = l1 ++ l2 /\
      event_queue_push q e = l1 ++ e :: l2 /\
      Forall (fun x => priority e <= priority x) l1 /\
      (forall x, head l2 = Some x -> priority x < priority e) /\
      length (event_queue_push q e) = S (length q).
Proof.
  intros q e. rewrite event_queue_push_walk.
  destruct (push_walk_split q e) as (l1 & l2 & Hq & Hpush & Hl1 & Hl2).
  exists l1, l2. rewrite Hpush, Hq, !length_app. cbn [length].
  split; [reflexivity|]. split; [reflexivity|]. split; [exact Hl1|].
  split; [exact Hl2 | lia].
Qed.

Lemma filter_all {A : Type} (f : A -> bool) l :
  Forall (fun x => f x = true) l -> List.filter f l = l.
Proof.
  induction 1 as [|x l Hx _ IH]; [reflexivity|]. simpl. rewrite Hx, IH. reflexivity.
Qed.

Lemma filter_none {A : Type} (f : A -> bool) l :
  Forall (fun x => f x = false) l -> List.filter f l = [].
Proof.
  induction 1 as [|x l Hx _ IH]; [reflexivity|]. simpl. rewrite Hx, IH. reflexivity.
Qed.

Lemma descending_app_r l1 l2 : descending (l1 ++ l2) -> descending l2.
Proof.
  induction l1 as [|x l1 IH]; [auto|]. simpl. intros [_ H]. auto.
Qed.

Lemma descending_below q x e :
  descending q -> head q = Some x -> priority x < priority e ->
  Forall (fun y => priority y < priority e) q.
Proof.
  destruct q as [|c next]; [constructor|].
  intros [Hc _] [= ->] Hlt. constructor; [exact Hlt|].
  eapply Forall_impl; [exact Hc|]. simpl. intros; lia.
Qed.

(** X6. In a queue that is in order of priority, the new event goes
    behind every event of its own or a higher priority and ahead of every
    event of a lower one, and the queue stays in order: an event of the
    highest priority so far is the next one popped, and an event is never
    overtaken by a later one of the same priority. *)
Theorem event_queue_push_sorted :
  forall (q : EventQueue) (e : Event),
    descending q ->
    event_queue_push q e =
      List.filter (fun x => priority e <=? priority x) q ++
      e :: List.filter (fun x => priority x <? priority e) q /\
    descending (event_queue_push q e) /\
    ((forall x, In x q -> priority x < priority e) ->
     forall ev, event_queue_pop (event_queue_push q e) ev = (1, q, e)).
Proof.
  intros q e Hd. rewrite event_queue_push_walk.
  split; [|split; [apply push_walk_descending, Hd|]].
  - destruct (push_walk_split q e) as (l1 & l2 & Hq & Hpush & Hl1 & Hl2).
    assert (Hl2' : Forall (fun y => priority y < priority e) l2).
    { destruct l2 as [|x l2']; [constructor|].
      apply (descending_below _ x); [|reflexivity | apply Hl2; reflexivity].
      rewrite Hq in Hd. apply (descending_app_r l1), Hd. }
    rewrite Hpush, Hq, !List.filter_app.
    rewrite (filter_all _ l1), (filter_none _ l2), (filter_none _ l1), (filter_all _ l2).
    + rewrite app_nil_r. reflexivity.
    + eapply Forall_impl; [exact Hl2'|]. simpl. intros x Hx. apply Z.ltb_lt, Hx.
    + eapply Forall_impl; [exact Hl1|]. simpl. intros x Hx. apply Z.ltb_ge, Hx.
    + eapply Forall_impl; [exact Hl2'|]. simpl. intros x Hx. apply Z.leb_gt, Hx.
    + eapply Forall_impl; [exact Hl1|]. simpl. intros x Hx. apply Z.leb_le, Hx.
  - intros Hall ev. destruct q as [|c next]; [reflexivity|].
    simpl. destruct (Z.geb_spec (priority c) (priority e)) as [Hge|_]; [|reflexivity].
    specialize (Hall c (or_introl eq_refl)). lia.
Qed.

(** A Low and a High event are waiting; the Insufficient event goes to
    the front. *)
Lemma event_queue_push_sorted_insufficient :
  let low := event_init (Some crew_loc) (Some oxygen_loc) EVENT_LOW in
  let high := event_init (Some propulsion_loc) (Some fuel_loc) EVENT_HIGH in
  let e := event_init (Some crew_loc) (Some oxygen_loc) EVENT_INSUFFICIENT in
  let q := [low; high] in
  event_queue_push q e =
    List.filter (fun x => priority e <=? priority x) q ++
    e :: List.filter (fun x => priority x <? priority e) q /\
  descending (event_queue_push q e) /\
  ((forall x, In x q -> priority x < priority e) ->
   forall ev, event_queue_pop (event_queue_push q e) ev = (1, q, e)).
Proof.
  intros low high e q.
  apply (event_queue_push_sorted q e).
  simpl. repeat split; repeat constructor; vm_compute; discriminate.
Defined.

(** ** system.c, resource.c: the arrays of systems and of resources *)

Lemma array_copy_spec count : forall i old new,
  (i + count <= length old)%nat -> (i + count <= length new)%nat ->
  exists new',
    array_copy count i (Some old) new = Some new' /\
    length new' = length new /\
    forall j, new' !! j =
              if decide (i <= j < i + count)%nat then old !! j else new !! j.
Proof.
  induction count as [|count IH]; intros i old new Hold Hnew; cbn [array_copy].
  - exists new. split; [reflexivity|]. split; [reflexivity|].
    intros j. destruct (decide _) as [H|]; [lia | reflexivity].
  - destruct (lookup_lt_is_Some_2 old i ltac:(lia)) as [v Hv]. rewrite Hv.
    destruct (decide (i < length new)%nat) as [_|]; [|lia].
    destruct (IH (S i) old (<[i := v]> new)) as (new' & Hrun & Hlen & Hget).
    { lia. } { rewrite length_insert. lia. }
    exists new'. split; [exact Hrun|]. split; [rewrite Hlen; apply length_insert|].
    intros j. rewrite Hget.
    destruct (decide (S i <= j < S i + count)%nat) as [H1|H1];
      destruct (decide (i <= j < i + S count)%nat) as [H2|H2]; try reflexivity; try lia.
    + assert (j = i) by lia. subst j.
      rewrite list_lookup_insert_eq by lia. symmetry; exact Hv.
    + apply list_lookup_insert_ne. lia.
Qed.

Lemma array_add_holds a xs v :
  array_holds a xs -> in_int (arr_capacity a * 2) ->
  exists a',
    array_add a (Some v) = Some a' /\
    array_holds a' (xs ++ [v]) /\
    arr_size a' = arr_size a + 1 /\
    arr_capacity a' =
      (if arr_size a =? arr_capacity a then 2 * arr_capacity a else arr_capacity a).
Proof.
  intros (block & Hitems & Hlen & Hsize & Hle & Hpos & Hget) Hint.
  assert (Hcap2 : in_int (arr_size a + 1))
    by (unfold in_int, INT_MIN, INT_MAX in *; lia).
  assert (Hfinish : forall block' cap,
    Z.of_nat (length block') = cap -> arr_size a < cap ->
    (forall i x, xs !! i = Some x -> block' !! i = Some (Some x)) ->
    exists a',
      (block'' ← array_write (Some block') (arr_size a) v;
       Some {| arr_items := Some block''; arr_size := int_add (arr_size a) 1;
               arr_capacity := cap |}) = Some a' /\
      array_holds a' (xs ++ [v]) /\
      arr_size a' = arr_size a + 1 /\ arr_capacity a' = cap).
  { intros block' cap Hlen' Hlt Hget'. unfold array_write.
    destruct (Z.leb_spec 0 (arr_size a)) as [_|]; [|lia].
    destruct (Z.ltb_spec (arr_size a) (Z.of_nat (length block'))) as [_|]; [|lia].
    cbn [andb mbind option_bind]. unfold int_add. rewrite wrap_small by exact Hcap2.
    eexists. split; [reflexivity|]. split; [|split; reflexivity].
    exists (<[Z.to_nat (arr_size a) := Some v]> block'). cbn.
    rewrite length_insert, length_app. cbn [length].
    split; [reflexivity|]. split; [exact Hlen'|]. split; [lia|]. split; [lia|].
    split; [lia|].
    intros i x Hx. rewrite Hsize, Nat2Z.id.
    destruct (decide (i = length xs)) as [->|Hne].
    - rewrite lookup_app_r, Nat.sub_diag in Hx by lia. injection Hx as <-.
      apply list_lookup_insert_eq. lia.
    - assert (i < length xs)%nat.
      { apply lookup_lt_Some in Hx. rewrite length_app in Hx. cbn in Hx. lia. }
      rewrite lookup_app_l in Hx by assumption.
      rewrite list_lookup_insert_ne by lia. apply Hget', Hx. }
  unfold array_add. rewrite Hitems.
  destruct (Z.geb_spec (arr_size a) (arr_capacity a)) as [Hge|Hlt].
  - assert (Heq : arr_size a = arr_capacity a) by lia.
    unfold int_mul. rewrite wrap_small by exact Hint.
    destruct (Z.ltb_spec (arr_capacity a * 2) 0) as [|_]; [lia|].
    destruct (array_copy_spec (Z.to_nat (arr_size a)) 0 block
                (replicate (Z.to_nat (arr_capacity a * 2)) None))
      as (new' & Hrun & Hlen' & Hget').
    { lia. } { rewrite length_replicate. lia. }
    rewrite Hrun. cbn [mbind option_bind].
    destruct (Hfinish new' (arr_capacity a * 2)) as (a' & Hrun' & Hholds & Hs & Hc).
    { rewrite Hlen', length_replicate. lia. } { lia. }
    { intros i x Hx. rewrite Hget'.
      pose proof (lookup_lt_Some _ _ _ Hx).
      destruct (decide _) as [_|Hn]; [apply Hget, Hx | lia]. }
    exists a'. split; [exact Hrun'|]. split; [exact Hholds|]. split; [exact Hs|].
    rewrite Hc, (proj2 (Z.eqb_eq _ _) Heq). lia.
  - cbn [mbind option_bind].
    destruct (Hfinish block (arr_capacity a)) as (a' & Hrun' & Hholds & Hs & Hc);
      [exact Hlen | lia | exact Hget |].
    exists a'. split; [exact Hrun'|]. split; [exact Hholds|]. split; [exact Hs|].
    rewrite Hc. destruct (Z.eqb_spec (arr_size a) (arr_capacity a)); [lia | reflexivity].
Qed.

Lemma array_init_holds : array_holds array_init [].
Proof.
  exists (replicate 10 None). cbn.
  repeat split; try lia. intros i x Hx. discriminate.
Qed.

(** X7. Adding to an array that holds [xs] gives an array that holds
    [xs] followed by the new pointer: the entries already there keep
    their place, also when the block is full and is replaced by one of
    twice the capacity, and no read or write leaves the block. *)
Theorem array_add_appends :
  forall (a : PtrArray) (xs : list nat) (v : nat),
    array_holds a xs -> in_int (arr_capacity a * 2) ->
    exists a',
      system_array_add a (Some v) = Some a' /\
      storage_add a (Some v) = Some a' /\
      array_holds a' (xs ++ [v]) /\
      arr_size a' = arr_size a + 1 /\
      arr_capacity a' =
        (if arr_size a =? arr_capacity a then 2 * arr_capacity a else arr_capacity a).
Proof.
  intros a xs v Hholds Hint. unfold system_array_add, storage_add.
  destruct (array_add_holds a xs v Hholds Hint) as (a' & Hrun & H).
  exists a'. split; [exact Hrun|]. split; [exact Hrun | exact H].
Qed.

Lemma array_add_appends_first :
  exists a',
    system_array_add system_array_init (Some propulsion_loc) = Some a' /\
    storage_add system_array_init (Some propulsion_loc) = Some a' /\
    array_holds a' ([] ++ [propulsion_loc]) /\
    arr_size a' = arr_size system_array_init + 1 /\
    arr_capacity a' =
      (if arr_size system_array_init =? arr_capacity system_array_init
       then 2 * arr_capacity system_array_init else arr_capacity system_array_init).
Proof.
  apply (array_add_appends system_array_init [] propulsion_loc);
    [apply array_init_holds | vm_compute; split; discriminate].
Defined.

Lemma array_add_all_holds xs : forall a ys,
  array_holds a ys ->
  arr_capacity a <= Z.max 10 (2 * arr_size a) ->
  Z.of_nat (length ys + length xs) <= 2 ^ 28 ->
  exists a',
    array_add_all a xs = Some a' /\ array_holds a' (ys ++ xs) /\
    arr_capacity a <= arr_capacity a'.
Proof.
  induction xs as [|x xs IH]; intros a ys Hholds Hcap Hlen; cbn [array_add_all].
  - exists a. rewrite app_nil_r. split; [reflexivity|]. split; [exact Hholds | lia].
  - assert (Hsize : arr_size a = Z.of_nat (length ys))
      by (destruct Hholds as (b & _ & _ & H & _); exact H).
    cbn [length] in Hlen.
    destruct (array_add_holds a ys x Hholds) as (a1 & Hrun & Hholds1 & Hs1 & Hc1).
    { unfold in_int, INT_MIN, INT_MAX.
      destruct Hholds as (b & _ & _ & _ & _ & Hpos & _). lia. }
    rewrite Hrun. cbn [mbind option_bind].
    destruct (IH a1 (ys ++ [x]) Hholds1) as (a' & Hrun' & Hholds' & Hc').
    { rewrite Hc1, Hs1.
      destruct (Z.eqb_spec (arr_size a) (arr_capacity a)); lia. }
    { rewrite length_app. cbn [length]. lia. }
    exists a'. split; [exact Hrun'|]. split.
    + rewrite <- app_assoc in Hholds'. exact Hholds'.
    + destruct (Z.eqb_spec (arr_size a) (arr_capacity a)) as [E|];
        destruct Hholds as (b & _ & _ & _ & _ & Hpos & _); lia.
Qed.

(** X8. Starting from an initialised array, any number of adds up to
    2^28 succeeds and the array holds the added pointers in the order of
    the adds; the capacity starts at 10 and never shrinks. *)
Theorem array_add_all_from_init :
  forall xs : list nat,
    Z.of_nat (length xs) <= 2 ^ 28 ->
    exists a,
      array_add_all system_array_init xs = Some a /\
      array_add_all storage_init xs = Some a /\
      array_holds a xs /\
      10 <= arr_capacity a.
Proof.
  intros xs Hlen.
  destruct (array_add_all_holds xs array_init [] array_init_holds)
    as (a & Hrun & Hholds & Hcap).
  { cbn. lia. } { exact Hlen. }
  exists a. split; [exact Hrun|]. split; [exact Hrun|]. split; [exact Hholds|].
  exact Hcap.
Qed.

(** Eleven adds: the block of 10 is replaced by one of 20. *)
Lemma array_add_all_from_init_eleven :
  exists a,
    array_add_all system_array_init (seq 0 11) = Some a /\
    array_add_all storage_init (seq 0 11) = Some a /\
    array_holds a (seq 0 11) /\
    10 <= arr_capacity a.
Proof.
  apply (array_add_all_from_init (seq 0 11)). vm_compute. discriminate.
Defined.

Lemma array_destroy_loop_free_all {V : Type} ys : forall i block (heap : gmap nat V),
  (forall k y, ys !! k = Some y -> block !! (i + k)%nat = Some (Some y)) ->
  array_destroy_loop (length ys) i (Some block) heap = free_all ys heap.
Proof.
  induction ys as [|y ys IH]; intros i block heap Hget; [reflexivity|].
  cbn [length array_destroy_loop free_all].
  pose proof (Hget 0%nat y eq_refl) as H0. rewrite Nat.add_0_r in H0. rewrite H0.
  destruct (heap !! y); [|reflexivity].
  apply IH. intros k y' Hk.
  replace (S i + k)%nat with (i + S k)%nat by lia. apply Hget. exact Hk.
Qed.

Lemma free_all_Some {V : Type} xs : forall (heap heap' : gmap nat V),
  free_all xs heap = Some heap' ->
  NoDup xs /\ (forall x, x ∈ xs -> is_Some (heap !! x)) /\
  forall l, heap' !! l = if decide (l ∈ xs) then None else heap !! l.
Proof.
  induction xs as [|x xs IH]; intros heap heap'; cbn [free_all].
  - intros [= <-]. split; [constructor|]. split.
    + intros x Hx. inversion Hx.
    + intros l. destruct (decide (l ∈ [])) as [H|]; [inversion H | reflexivity].
  - destruct (heap !! x) as [v|] eqn:Hx; [|discriminate].
    intros Hrun. destruct (IH _ _ Hrun) as (Hnd & Hall & Hget).
    assert (Hnotin : x ∉ xs).
    { intros Hin. destruct (Hall x Hin) as [w Hw].
      rewrite lookup_delete_eq in Hw. discriminate. }
    split; [constructor; assumption|]. split.
    + intros y Hy. apply elem_of_cons in Hy. destruct Hy as [->|Hy]; [eauto|].
      destruct (Hall y Hy) as [w Hw].
      apply lookup_delete_Some in Hw. destruct Hw as [_ Hw]. eauto.
    + intros l. rewrite Hget.
      destruct (decide (l ∈ xs)) as [Hin|Hin];
        destruct (decide (l ∈ x :: xs)) as [Hin'|Hin']; try reflexivity.
      * elim Hin'. apply elem_of_cons. right; exact Hin.
      * apply elem_of_cons in Hin'. destruct Hin' as [->|]; [|contradiction].
        apply lookup_delete_eq.
      * apply lookup_delete_ne. intros ->. apply Hin', elem_of_cons. left; reflexivity.
Qed.

Lemma free_all_is_Some {V : Type} xs : forall (heap : gmap nat V),
  NoDup xs -> (forall x, x ∈ xs -> is_Some (heap !! x)) ->
  is_Some (free_all xs heap).
Proof.
  induction xs as [|x xs IH]; intros heap Hnd Hall; cbn [free_all]; [eauto|].
  apply NoDup_cons in Hnd. destruct Hnd as [Hnotin Hnd].
  destruct (Hall x) as [v Hv]; [apply elem_of_cons; left; reflexivity|].
  rewrite Hv. apply IH; [exact Hnd|].
  intros y Hy. destruct (Hall y) as [w Hw]; [apply elem_of_cons; right; exact Hy|].
  exists w. apply lookup_delete_Some. split; [|exact Hw].
  intros ->. contradiction.
Qed.

Lemma array_clean_free_all {V : Type} a xs (heap : gmap nat V) :
  array_holds a xs ->
  array_clean a heap =
    (heap' ← free_all xs heap;
     Some ({| arr_items := None; arr_size := 0; arr_capacity := 0 |}, heap')).
Proof.
  intros (block & Hitems & Hlen & Hsize & Hle & Hpos & Hget).
  unfold array_clean. rewrite Hitems, Hsize, Nat2Z.id.
  rewrite (array_destroy_loop_free_all xs 0 block heap); [reflexivity|].
  intros k y Hk. apply Hget, Hk.
Qed.

Lemma array_clean_spec {V : Type} a xs (heap : gmap nat V) :
  array_holds a xs ->
  (is_Some (array_clean a heap) <->
   NoDup xs /\ forall x, x ∈ xs -> is_Some (heap !! x)) /\
  (forall a' heap',
     array_clean a heap = Some (a', heap') ->
     (forall l, heap' !! l = if decide (l ∈ xs) then None else heap !! l) /\
     arr_size a' = 0 /\ arr_capacity a' = 0 /\
     forall p, array_add a' p = None).
Proof.
  intros Hholds. rewrite (array_clean_free_all a xs heap Hholds). split.
  - split.
    + intros [[a' heap'] Hrun].
      destruct (free_all xs heap) as [h|] eqn:E; [|discriminate].
      destruct (free_all_Some _ _ _ E) as (Hnd & Hall & _). auto.
    + intros [Hnd Hall].
      destruct (free_all_is_Some xs heap Hnd Hall) as [h Hh].
      rewrite Hh. cbn. eauto.
  - intros a' heap' Hrun.
    destruct (free_all xs heap) as [h|] eqn:E; [|discriminate].
    cbn in Hrun. injection Hrun as <- <-.
    destruct (free_all_Some _ _ _ E) as (_ & _ & Hget).
    split; [exact Hget|]. split; [reflexivity|]. split; [reflexivity|].
    intros [v|]; reflexivity.
Qed.

(** X9. Cleaning an array that holds [xs] succeeds exactly when the
    pointers of [xs] are distinct and each leads to an allocated object
    (a pointer added twice is freed twice).  It then frees these objects
    and no other, and leaves the array with size and capacity 0; such an
    array takes no further add, since doubling 0 gives a block without
    room. *)
Theorem array_clean_frees :
  forall (a : PtrArray) (xs : list nat)
         (systems : gmap nat System) (pool : gmap nat Resource),
    array_holds a xs ->
    ((is_Some (system_array_clean a systems) <->
      NoDup xs /\ forall x, x ∈ xs -> is_Some (systems !! x)) /\
     (forall a' systems',
        system_array_clean a systems = Some (a', systems') ->
        (forall l, systems' !! l = if decide (l ∈ xs) then None else systems !! l) /\
        arr_size a' = 0 /\ arr_capacity a' = 0 /\
        forall p, system_array_add a' p = None)) /\
    ((is_Some (storage_clean a pool) <->
      NoDup xs /\ forall x, x ∈ xs -> is_Some (pool !! x)) /\
     (forall a' pool',
        storage_clean a pool = Some (a', pool') ->
        (forall l, pool' !! l = if decide (l ∈ xs) then None else pool !! l) /\
        arr_size a' = 0 /\ arr_capacity a' = 0 /\
        forall p, storage_add a' p = None)).
Proof.
  intros a xs systems pool Hholds.
  unfold system_array_clean, storage_clean, system_array_add, storage_add.
  split; apply array_clean_spec, Hholds.
Qed.

Lemma loaded_array_holds : array_holds loaded_array [0; 1; 2; 3]%nat.
Proof.
  eexists. split; [reflexivity|]. cbn. repeat split; try lia.
  intros i x Hx.
  do 4 (destruct i as [|i]; [injection Hx as <-; reflexivity|]).
  discriminate.
Qed.

Lemma array_clean_frees_loaded :
  let a := loaded_array in
  let xs := [0; 1; 2; 3]%nat in
  let systems := system_heap initial_state in
  let pool := resource_heap initial_state in
  ((is_Some (system_array_clean a systems) <->
    NoDup xs /\ forall x, x ∈ xs -> is_Some (systems !! x)) /\
   (forall a' systems',
      system_array_clean a systems = Some (a', systems') ->
      (forall l, systems' !! l = if decide (l ∈ xs) then None else systems !! l) /\
      arr_size a' = 0 /\ arr_capacity a' = 0 /\
      forall p, system_array_add a' p = None)) /\
  ((is_Some (storage_clean a pool) <->
    NoDup xs /\ forall x, x ∈ xs -> is_Some (pool !! x)) /\
   (forall a' pool',
      storage_clean a pool = Some (a', pool') ->
      (forall l, pool' !! l = if decide (l ∈ xs) then None else pool !! l) /\
      arr_size a' = 0 /\ arr_capacity a' = 0 /\
      forall p, storage_add a' p = None)).
Proof.
  intros a xs systems pool.
  apply (array_clean_frees a xs systems pool loaded_array_holds).
Defined.

(** ** Relations that every run of a system keeps *)

Section SystemRuns.

Context (R : State -> State -> Prop) `{!PreOrder R}.
Hypothesis R_res : forall st h, R st (set_resource_heap h st).
Hypothesis R_emit : forall st o, R st (emit o st).
Hypothesis R_push : forall st e, R st (push_event e st).

Lemma R_push_wait st e : R st (emit system_wait (push_event e st)).
Proof. transitivity (push_event e st); [apply R_push | apply R_emit]. Qed.

Lemma transfer_from_at_keeps st p amt :
  stops R fst st (transfer_from_at st p amt).
Proof.
  unfold transfer_from_at. destruct p as [i|]; [|stop_now].
  apply stops_deref_resource; [assumption|]. intros r Hr.
  destruct (resource_transfer_from r amt) as [r' amt'].
  apply stops_Done, R_res.
Qed.

Lemma transfer_into_at_keeps st p amt :
  stops R fst st (transfer_into_at st p amt).
Proof.
  unfold transfer_into_at. destruct p as [i|]; [|stop_now].
  apply stops_deref_resource; [assumption|]. intros r Hr.
  destruct (resource_transfer_into r amt) as [r' amt'].
  apply stops_Done, R_res.
Qed.

Lemma pull_loop_keeps fuel : forall system amt st,
  stops R fst st (pull_loop fuel system amt st).
Proof.
  induction fuel as [|fuel IH]; intros system amt st; cbn [pull_loop]; [stop_now|].
  destruct (amt >? 0); [|stop_now].
  apply stops_get_mode; [assumption|]. intros s0 Hs0.
  destruct (negb (mode s0 =? MODE_TERMINATE)); [|stop_now].
  apply stops_deref_system; [assumption|]. intros s Hs.
  eapply (stops_bind _ fst); [apply transfer_from_at_keeps|].
  intros [st1 amt'] _. cbn [fst].
  destruct (amt' >? 0); [|apply IH].
  destruct (negb (SINGLE_THREAD_MODE =? 0)).
  - apply stops_Done, R_push_wait.
  - eapply stops_from; [typeclasses eauto | apply R_push_wait | apply IH].
Qed.

Lemma process_step_keeps system amt st :
  stops R fst st (process_step system amt st).
Proof.
  unfold process_step. destruct (amt =? 0); [|stop_now].
  eapply (stops_bind _ id).
  { unfold system_simulate_process_time.
    apply stops_deref_system; [assumption|]. intros s Hs.
    apply stops_Done, R_emit. }
  intros st1 _. unfold id at 1.
  apply stops_deref_system; [assumption|]. intros s Hs.
  apply stops_Done, R_push.
Qed.

Lemma push_loop_keeps fuel : forall system amt st,
  stops R fst st (push_loop fuel system amt st).
Proof.
  induction fuel as [|fuel IH]; intros system amt st; cbn [push_loop]; [stop_now|].
  apply stops_deref_system; [assumption|]. intros s Hs.
  destruct (output (recipe s)) as [o|]; [|stop_now].
  destruct (amt >? 0); [|stop_now].
  apply stops_get_mode; [assumption|]. intros s0 Hs0.
  destruct (negb (mode s0 =? MODE_TERMINATE)); [|stop_now].
  eapply (stops_bind _ fst); [apply transfer_into_at_keeps|].
  intros [st1 amt'] _. cbn [fst].
  destruct (amt' >? 0); [|apply IH].
  destruct (negb (SINGLE_THREAD_MODE =? 0)).
  - apply stops_Done, R_push_wait.
  - eapply stops_from; [typeclasses eauto | apply R_push_wait | apply IH].
Qed.

Lemma report_recipe_thresholds_keeps st system :
  stops R id st (report_recipe_thresholds st system).
Proof.
  unfold report_recipe_thresholds.
  apply stops_deref_system; [assumption|]. intros s Hs.
  destruct (input (recipe s)) as [i|]; [|stop_now].
  apply stops_deref_resource; [assumption|]. intros r Hr.
  destruct (_ <=? _); [apply stops_Done, R_push|].
  destruct (_ >? _); [apply stops_Done, R_push | stop_now].
Qed.

Lemma system_run_keeps fuel system st :
  stops R id st (system_run fuel system st).
Proof.
  unfold system_run.
  apply stops_deref_system; [assumption|]. intros s Hs.
  eapply (stops_bind _ fst); [apply pull_loop_keeps|].
  intros [st1 [amt'|]] _; cbn [fst]; [|stop_now].
  eapply (stops_bind _ fst); [apply process_step_keeps|].
  intros [st2 out] _; cbn [fst].
  eapply (stops_bind _ fst); [apply push_loop_keeps|].
  intros [st3 [|]] _; cbn [fst]; [|stop_now].
  apply report_recipe_thresholds_keeps.
Qed.

Lemma system_thread_keeps fuel arg st :
  stops R id st (system_thread fuel arg st).
Proof.
  destruct arg as [system|]; cbn [system_thread]; [|apply stops_Done, R_emit].
  revert st. induction fuel as [|fuel IH]; intros st;
    cbn [system_thread_loop]; [stop_now|].
  apply stops_get_mode; [assumption|]. intros s0 Hs0.
  destruct (negb (mode s0 =? MODE_TERMINATE)); [|stop_now].
  eapply (stops_bind _ id); [apply system_run_keeps|].
  intros st1 _. unfold id at 1.
  eapply stops_from; [typeclasses eauto | apply R_emit | apply IH].
Qed.

End SystemRuns.

(** ** Relations that every run of the manager keeps *)

Section ManagerRuns.

Context (R : State -> State -> Prop) `{!PreOrder R}.
Hypothesis R_emit : forall st o, R st (emit o st).
Hypothesis R_running : forall st v, R st (set_simulation_running v st).
Hypothesis R_pop : forall st e q,
  event_queue st = e :: q -> R st (set_event_queue q st).
Hypothesis R_mode : forall st l s m,
  system_heap st !! l = Some s -> mode s <> MODE_TERMINATE -> assigned_mode m ->
  R st (set_system_heap (<[l := with_mode m s]> (system_heap st)) st).

Lemma update_systems_keeps m event systems : forall st,
  assigned_mode m -> stops R id st (update_systems m event systems st).
Proof.
  induction systems as [|sys rest IH]; intros st Hm; cbn [update_systems]; [stop_now|].
  apply stops_get_mode; [assumption|]. intros s0 Hs0.
  destruct (Z.eqb_spec (mode s0) MODE_TERMINATE) as [Ht|Ht]; [apply IH, Hm|].
  apply stops_deref_system; [assumption|]. intros s Hs.
  destruct (_ || _); [|apply IH, Hm].
  eapply (stops_bind _ id); [|intros st1 _; apply IH, Hm].
  unfold system_set_mode.
  apply stops_deref_system; [assumption|]. intros s' Hs'.
  apply deref_system_Some in Hs'.
  assert (s' = s0) by congruence. subst s'.
  apply stops_Done. apply (R_mode st sys s0 m Hs0 Ht Hm).
Qed.

Lemma manager_run_body_keeps event st :
  stops R id st (manager_run_body event st).
Proof.
  unfold manager_run_body.
  apply stops_deref_system; [assumption|]. intros s0 Hs0.
  eapply stops_from with (st1 := emit _ st); [typeclasses eauto | apply R_emit |].
  destruct (priority event =? PRIORITY_IGN); [stop_now|].
  eapply (stops_bind _ id).
  { unfold display_event.
    apply stops_deref_system; [assumption|]. intros s Hs.
    apply stops_deref_resource; [assumption|]. intros r Hr.
    apply stops_Done, R_emit. }
  intros st1 _. unfold id at 1.
  eapply (stops_bind _ (fun _ => st1)).
  { unfold status_and_name. destruct (_ =? _); [|stop_now].
    apply stops_deref_resource; [assumption|]. intros r Hr. stop_now. }
  intros no_oxygen_flag _.
  eapply (stops_bind _ (fun _ => st1)).
  { unfold status_and_name. destruct (_ =? _); [|stop_now].
    apply stops_deref_resource; [assumption|]. intros r Hr. stop_now. }
  intros distance_reached_flag _.
  assert (Hend : forall text,
    R st1 (set_simulation_running 0
             (emit (Out_printf text) (display_finish_sim st1)))).
  { intros text. transitivity (display_finish_sim st1); [apply R_emit|].
    transitivity (emit (Out_printf text) (display_finish_sim st1));
      [apply R_emit | apply R_running]. }
  match goal with
  | |- stops _ _ _ (let '(m, st) := ?c in _) =>
      assert (Hc : R st1 (snd c) /\ assigned_mode (fst c));
      [|destruct c as [m st2]; cbn [fst snd] in Hc; destruct Hc as [Hc Hm]]
  end.
  { unfold assigned_mode.
    destruct no_oxygen_flag; [split; [apply Hend | auto]|].
    destruct distance_reached_flag; [split; [apply Hend | auto]|].
    destruct (_ || _); [split; [reflexivity | auto]|].
    destruct (_ || _); split; (reflexivity || auto). }
  eapply stops_from; [typeclasses eauto | exact Hc |].
  eapply (stops_bind _ id); [apply update_systems_keeps, Hm|].
  intros st3 _. apply stops_Done, R_emit.
Qed.

Lemma manager_run_keeps fuel st :
  stops R id st (manager_run fuel st).
Proof.
  unfold manager_run, display_simulation_state.
  eapply stops_from with (st1 := emit Out_display_state st);
    [typeclasses eauto | apply R_emit |].
  generalize (emit Out_display_state st) (mkEvent None None 0 0).
  clear st. induction fuel as [|fuel IH]; intros st event;
    cbn [manager_run_loop]; [stop_now|].
  destruct (simulation_running st =? 0); [stop_now|].
  destruct (event_queue st) as [|event' q] eqn:Hq; cbn [event_queue_pop]; [stop_now|].
  change (1 =? 0) with false. cbv iota.
  eapply stops_from with (st1 := set_event_queue q st);
    [typeclasses eauto | apply (R_pop st event' q Hq) |].
  eapply (stops_bind _ id); [apply manager_run_body_keeps|].
  intros st1 _. apply IH.
Qed.

Lemma manager_thread_keeps fuel st :
  stops R id st (manager_thread fuel st).
Proof.
  unfold manager_thread.
  eapply stops_from with (st1 := emit (Out_printf "Manager thread started") st);
    [typeclasses eauto | apply R_emit |].
  eapply (stops_bind _ id); [|intros st1 _; apply stops_Done, R_emit].
  generalize (emit (Out_printf "Manager thread started") st).
  clear st. induction fuel as [|fuel IH]; intros st;
    cbn [manager_thread_loop]; [stop_now|].
  destruct (simulation_running st =? 0); [stop_now|].
  eapply (stops_bind _ id); [apply manager_run_keeps|].
  intros st1 _. unfold id at 1.
  eapply stops_from; [typeclasses eauto | apply R_emit | apply IH].
Qed.

End ManagerRuns.

(** ** What the runs keep *)

#[local] Instance queue_order_kept_preorder : PreOrder queue_order_kept.
Proof.
  split; [intros st H; exact H | intros a b c H1 H2 H; auto].
Qed.

#[local] Instance control_kept_preorder : PreOrder control_kept.
Proof.
  split.
  - intros st. repeat split.
  - intros a b c (H1 & H2 & H3 & H4) (H5 & H6 & H7 & H8).
    unfold control_kept. repeat split; congruence.
Qed.

Lemma systems_remodeled_same st st' :
  system_heap st' = system_heap st -> systems_remodeled st st'.
Proof.
  intros E l. rewrite E. destruct (system_heap st !! l); auto.
Qed.

#[local] Instance systems_remodeled_preorder : PreOrder systems_remodeled.
Proof.
  split.
  - intros st. apply systems_remodeled_same. reflexivity.
  - intros a b c Hab Hbc l. specialize (Hab l). specialize (Hbc l).
    destruct (system_heap a !! l) as [sa|], (system_heap b !! l) as [sb|],
      (system_heap c !! l) as [sc|]; try tauto.
    destruct Hab as (Hn1 & Hr1 & Hm1), Hbc as (Hn2 & Hr2 & Hm2).
    split; [congruence|]. split; [congruence|].
    destruct Hm2 as [Hm2|Hm2]; [|right; exact Hm2].
    rewrite Hm2. exact Hm1.
Qed.

Lemma push_event_descending e st :
  descending (event_queue st) -> descending (event_queue (push_event e st)).
Proof.
  unfold push_event. cbn [event_queue set_event_queue].
  rewrite event_queue_push_walk. apply push_walk_descending.
Qed.

(** X10. The order of the queue is an invariant of the whole program: if
    the events are in order of priority, highest first, they still are
    after any run of a system or of the manager, and of their threads,
    however the run ends.  The queue of [manager_init] is empty, so the
    head of the queue is at all times an event of the highest priority
    enqueued. *)
Theorem queue_order_invariant :
  forall (st : State),
    descending (event_queue st) ->
    (forall fuel system, descending (event_queue (final id (system_run fuel system st)))) /\
    (forall fuel arg, descending (event_queue (final id (system_thread fuel arg st)))) /\
    (forall fuel, descending (event_queue (final id (manager_run fuel st)))) /\
    (forall fuel, descending (event_queue (final id (manager_thread fuel st)))) /\
    descending (event_queue (manager_init st)).
Proof.
  intros st Hd.
  assert (Hres : forall st h, queue_order_kept st (set_resource_heap h st))
    by (intros s h H; exact H).
  assert (Hemit : forall st o, queue_order_kept st (emit o st))
    by (intros s o H; exact H).
  assert (Hpush : forall st e, queue_order_kept st (push_event e st))
    by (intros s e H; apply push_event_descending, H).
  assert (Hrun : forall st v, queue_order_kept st (set_simulation_running v st))
    by (intros s v H; exact H).
  assert (Hpop : forall st e q, event_queue st = e :: q ->
                                queue_order_kept st (set_event_queue q st)).
  { intros s e q Hq H. rewrite Hq in H. apply H. }
  assert (Hmode : forall st l s m,
    system_heap st !! l = Some s -> mode s <> MODE_TERMINATE -> assigned_mode m ->
    queue_order_kept st (set_system_heap (<[l := with_mode m s]> (system_heap st)) st))
    by (intros s l s' m _ _ _ H; exact H).
  split; [intros fuel system;
          apply (system_run_keeps queue_order_kept Hres Hemit Hpush fuel system st Hd)|].
  split; [intros fuel arg;
          apply (system_thread_keeps queue_order_kept Hres Hemit Hpush fuel arg st Hd)|].
  split; [intros fuel;
          apply (manager_run_keeps queue_order_kept Hemit Hrun Hpop Hmode fuel st Hd)|].
  split; [intros fuel;
          apply (manager_thread_keeps queue_order_kept Hemit Hrun Hpop Hmode fuel st Hd)|].
  exact I.
Qed.

Lemma queue_order_invariant_initial :
  let st := initial_state in
  (forall fuel system, descending (event_queue (final id (system_run fuel system st)))) /\
  (forall fuel arg, descending (event_queue (final id (system_thread fuel arg st)))) /\
  (forall fuel, descending (event_queue (final id (manager_run fuel st)))) /\
  (forall fuel, descending (event_queue (final id (manager_thread fuel st)))) /\
  descending (event_queue (manager_init st)).
Proof.
  intros st. apply (queue_order_invariant st). exact I.
Defined.

Lemma system_thread_loop_not_Done fuel : forall l st s st',
  system_heap st !! l = Some s -> mode s <> MODE_TERMINATE ->
  system_thread_loop fuel l st <> Done st'.
Proof.
  induction fuel as [|fuel IH]; intros l st s st' Hs Hm; cbn [system_thread_loop];
    [discriminate|].
  unfold system_get_mode, deref_system. rewrite Hs. cbn [mbind result_bind].
  destruct (Z.eqb_spec (mode s) MODE_TERMINATE) as [|_]; [contradiction|]. cbn [negb].
  pose proof (system_run_frame fuel l st) as [_ Hsame].
  destruct (system_run fuel l st) as [st1| |]; cbn [mbind result_bind];
    [|discriminate..].
  apply (IH l _ s). cbn in Hsame |- *. unfold same_systems in Hsame.
  rewrite Hsame. exact Hs. exact Hm.
Qed.

(** X11. The code of a system writes resources, the queue and the trace
    only: after any run of [system_run] or of a system's thread, however
    it ends, every system has the mode, name and recipe it had, and the
    running flag and both arrays of the manager are as they were.  So
    the thread of a system that is not in Terminate cannot end by
    itself: whatever the fuel, it does not return. *)
Theorem system_runs_need_manager :
  forall (fuel : nat) (l : nat) (st : State),
    control_kept st (final id (system_run fuel l st)) /\
    control_kept st (final id (system_thread fuel (Some l) st)) /\
    (forall s, system_heap st !! l = Some s -> mode s <> MODE_TERMINATE ->
               forall st', system_thread fuel (Some l) st <> Done st').
Proof.
  intros fuel l st.
  assert (Hres : forall st h, control_kept st (set_resource_heap h st))
    by (intros; repeat split).
  assert (Hemit : forall st o, control_kept st (emit o st))
    by (intros; repeat split).
  assert (Hpush : forall st e, control_kept st (push_event e st))
    by (intros; repeat split).
  split; [apply (system_run_keeps control_kept Hres Hemit Hpush)|].
  split; [apply (system_thread_keeps control_kept Hres Hemit Hpush)|].
  intros s Hs Hm st'. apply (system_thread_loop_not_Done fuel l st s st' Hs Hm).
Qed.

(** X12. The manager changes modes only, and only to Terminate, Slow,
    Standard or Fast: after any run of [manager_run] or of the manager's
    thread, however it ends, the systems are the same objects with the
    same names and recipes, and each mode is as it was or one of these
    four.  [MODE_DISABLED] is never assigned: if no system is in Disabled
    before, none is after. *)
Theorem manager_assigns_modes :
  forall (fuel : nat) (st : State),
    systems_remodeled st (final id (manager_run fuel st)) /\
    systems_remodeled st (final id (manager_thread fuel st)) /\
    (forall event, systems_remodeled st (final id (manager_run_body event st))) /\
    ((forall l s, system_heap st !! l = Some s -> mode s <> MODE_DISABLED) ->
     forall l s', system_heap (final id (manager_thread fuel st)) !! l = Some s' ->
                  mode s' <> MODE_DISABLED).
Proof.
  intros fuel st.
  assert (Hemit : forall st o, systems_remodeled st (emit o st))
    by (intros; apply systems_remodeled_same; reflexivity).
  assert (Hrun : forall st v, systems_remodeled st (set_simulation_running v st))
    by (intros; apply systems_remodeled_same; reflexivity).
  assert (Hpop : forall st e q, event_queue st = e :: q ->
                                systems_remodeled st (set_event_queue q st))
    by (intros; apply systems_remodeled_same; reflexivity).
  assert (Hmode : forall st l s m,
    system_heap st !! l = Some s -> mode s <> MODE_TERMINATE -> assigned_mode m ->
    systems_remodeled st (set_system_heap (<[l := with_mode m s]> (system_heap st)) st)).
  { intros s l s0 m Hs _ Hm l'. cbn [system_heap set_system_heap].
    destruct (decide (l = l')) as [<-|Hne].
    - rewrite Hs, lookup_insert_eq. cbn. auto.
    - rewrite lookup_insert_ne by exact Hne.
      destruct (system_heap s !! l'); auto. }
  pose proof (manager_thread_keeps systems_remodeled Hemit Hrun Hpop Hmode fuel st)
    as Hthread.
  split; [apply (manager_run_keeps systems_remodeled Hemit Hrun Hpop Hmode)|].
  split; [exact Hthread|].
  split; [intros event;
          apply (manager_run_body_keeps systems_remodeled Hemit Hrun Hmode)|].
  intros Hall l s' Hs'. specialize (Hthread l). unfold stops in Hs'.
  rewrite Hs' in Hthread.
  destruct (system_heap st !! l) as [s|] eqn:Hs; [|contradiction].
  destruct Hthread as (_ & _ & [Hm|Hm]).
  - rewrite Hm. apply (Hall l s Hs).
  - destruct Hm as [Hm|[Hm|[Hm|Hm]]]; rewrite Hm; discriminate.
Qed.

(** ** Runs of the manager over the queue *)

(** X13. The loop of [manager_run] ends: it takes one event off the queue
    per iteration and nothing in it pushes one, so with more fuel than
    there are events enqueued the run is never cut short; and the queue
    it leaves is never longer than the one it found. *)
Theorem manager_run_ends :
  forall (fuel : nat) (st : State),
    (length (event_queue st) < fuel)%nat ->
    (forall st', manager_run fuel st <> OutOfFuel st') /\
    (length (event_queue (final id (manager_run fuel st))) <= length (event_queue st))%nat.
Proof.
  intros fuel st Hlen. split.
  - apply (manager_run_returns fuel st Hlen).
  - apply (manager_run_frame fuel st).
Qed.

Lemma manager_run_ends_initial :
  let st := push_event (event_init (Some crew_loc) (Some oxygen_loc) EVENT_LOW)
              initial_state in
  (forall st', manager_run 2 st <> OutOfFuel st') /\
  (length (event_queue (final id (manager_run 2 st))) <= length (event_queue st))%nat.
Proof.
  intros st. apply (manager_run_ends 2 st). vm_compute. lia.
Defined.














(** ** The cycle of a system, phase by phase *)

(** X16. [report_recipe_thresholds] pushes at most one event, for the
    input resource: Low when the stock is at most twice the recipe's
    [input_amount], High when it is more than five times that amount,
    and nothing in between; a system without input reports nothing.  The
    stock is read only: nothing but the queue changes.  A dangling input
    pointer stops the run. *)
Theorem report_recipe_thresholds_cases :
  forall (st : State) (l : nat) (s : System),
    system_heap st !! l = Some s ->
    in_int (input_amount (recipe s) * PARAM_RESOURCE_HIGH) ->
    (input (recipe s) = None -> report_recipe_thresholds st l = Done st) /\
    (forall i r,
       input (recipe s) = Some i -> resource_heap st !! i = Some r ->
       (amount r <= 2 * input_amount (recipe s) ->
        report_recipe_thresholds st l =
          Done (push_event (event_init (Some l) (Some i) EVENT_LOW) st)) /\
       (2 * input_amount (recipe s) < amount r <= 5 * input_amount (recipe s) ->
        report_recipe_thresholds st l = Done st) /\
       (2 * input_amount (recipe s) < amount r ->
        5 * input_amount (recipe s) < amount r ->
        report_recipe_thresholds st l =
          Done (push_event (event_init (Some l) (Some i) EVENT_HIGH) st))) /\
    (forall i,
       input (recipe s) = Some i -> resource_heap st !! i = None ->
       report_recipe_thresholds st l = Crash st).
Proof.
  intros st l s Hs Hint.
  assert (Hint2 : in_int (input_amount (recipe s) * PARAM_RESOURCE_LOW))
    by (unfold in_int, INT_MIN, INT_MAX, PARAM_RESOURCE_HIGH, PARAM_RESOURCE_LOW in *;
        lia).
  unfold report_recipe_thresholds, deref_system. rewrite Hs. cbn [mbind result_bind].
  split; [intros ->; reflexivity|]. split.
  - intros i r -> Hr. unfold deref_resource. rewrite Hr. cbn [mbind result_bind].
    unfold int_mul. rewrite !wrap_small by assumption.
    unfold PARAM_RESOURCE_HIGH, PARAM_RESOURCE_LOW.
    split; [|split].
    + intros H. destruct (Z.leb_spec (amount r) (input_amount (recipe s) * 2));
        [reflexivity | lia].
    + intros H. destruct (Z.leb_spec (amount r) (input_amount (recipe s) * 2)); [lia|].
      destruct (Z.gtb_spec (amount r) (input_amount (recipe s) * 5));
        [lia | reflexivity].
    + intros H1 H2.
      destruct (Z.leb_spec (amount r) (input_amount (recipe s) * 2)); [lia|].
      destruct (Z.gtb_spec (amount r) (input_amount (recipe s) * 5));
        [reflexivity | lia].
  - intros i -> Hr. unfold deref_resource. rewrite Hr. reflexivity.
Qed.

Lemma report_recipe_thresholds_cases_propulsion :
  let st := initial_state in
  let l := propulsion_loc in
  let s := system_create "Propulsion"
             (recipe_init (Some fuel_loc) (Some distance_loc) 5 25 500) in
  (input (recipe s) = None -> report_recipe_thresholds st l = Done st) /\
  (forall i r,
     input (recipe s) = Some i -> resource_heap st !! i = Some r ->
     (amount r <= 2 * input_amount (recipe s) ->
      report_recipe_thresholds st l =
        Done (push_event (event_init (Some l) (Some i) EVENT_LOW) st)) /\
     (2 * input_amount (recipe s) < amount r <= 5 * input_amount (recipe s) ->
      report_recipe_thresholds st l = Done st) /\
     (2 * input_amount (recipe s) < amount r ->
      5 * input_amount (recipe s) < amount r ->
      report_recipe_thresholds st l =
        Done (push_event (event_init (Some l) (Some i) EVENT_HIGH) st))) /\
  (forall i,
     input (recipe s) = Some i -> resource_heap st !! i = None ->
     report_recipe_thresholds st l = Crash st).
Proof.
  intros st l s.
  apply (report_recipe_thresholds_cases st l s);
    [reflexivity | vm_compute; split; discriminate].
Defined.

Lemma report_recipe_thresholds_Done st l s i r :
  system_heap st !! l = Some s -> input (recipe s) = Some i ->
  resource_heap st !! i = Some r ->
  exists st',
    report_recipe_thresholds st l = Done st' /\
    resource_heap st' = resource_heap st /\
    system_heap st' = system_heap st /\
    trace st' = trace st /\
    forall e, In e (event_queue st) -> In e (event_queue st').
Proof.
  intros Hs Hi Hr.
  unfold report_recipe_thresholds, deref_system, deref_resource.
  rewrite Hs. cbn [mbind result_bind]. rewrite Hi, Hr. cbn [mbind result_bind].
  destruct (_ <=? _).
  { eexists. split; [reflexivity|]. repeat split.
    intros e He. apply push_event_In. right; exact He. }
  destruct (_ >? _).
  { eexists. split; [reflexivity|]. repeat split.
    intros e He. apply push_event_In. right; exact He. }
  exists st. repeat split. auto.
Qed.

Lemma transfer_into_enough r amt :
  resource_ok r -> 0 <= amt <= max_capacity r - amount r ->
  resource_transfer_into r amt =
    ({| name := name r; amount := amount r + amt;
        max_capacity := max_capacity r |}, 0).
Proof.
  intros [Ha Hm] Hamt. unfold in_int, INT_MIN, INT_MAX in Hm.
  unfold resource_transfer_into, int_sub, int_add.
  rewrite (wrap_small (max_capacity r - amount r))
    by (unfold in_int, INT_MIN, INT_MAX; lia).
  destruct (Z.geb_spec (max_capacity r - amount r) amt); [|lia].
  rewrite Z.sub_diag, wrap_small by (unfold in_int, INT_MIN, INT_MAX; lia).
  reflexivity.
Qed.

Lemma transfer_from_enough_full r amt :
  resource_ok r -> 0 <= amt <= amount r ->
  resource_transfer_from r amt =
    ({| name := name r; amount := amount r - amt;
        max_capacity := max_capacity r |}, 0).
Proof.
  intros [Ha Hm] Hamt. unfold in_int, INT_MIN, INT_MAX in Hm.
  unfold resource_transfer_from, int_sub.
  destruct (Z.ltb_spec (amount r) amt); [lia|].
  rewrite Z.sub_diag, wrap_small by (unfold in_int, INT_MIN, INT_MAX; lia).
  reflexivity.
Qed.

Lemma push_loop_enough fuel st l s o ro out :
  system_heap st !! l = Some s ->
  mode s <> MODE_TERMINATE ->
  output (recipe s) = Some o ->
  resource_heap st !! o = Some ro ->
  resource_ok ro ->
  0 <= out <= max_capacity ro - amount ro ->
  exists st',
    push_loop (S (S fuel)) l out st = Done (st', true) /\
    system_heap st' = system_heap st /\
    event_queue st' = event_queue st /\
    trace st' = trace st /\
    resource_heap st' !! o =
      Some {| name := name ro; amount := amount ro + out;
              max_capacity := max_capacity ro |} /\
    forall k, k <> o -> resource_heap st' !! k = resource_heap st !! k.
Proof.
  intros Hs Hm Ho Hr Hok Hout. cbn [push_loop].
  unfold deref_system. rewrite Hs. cbn [mbind result_bind]. rewrite Ho.
  destruct (Z.gtb_spec out 0) as [Hpos|Hzero].
  - unfold system_get_mode, deref_system. rewrite Hs. cbn [mbind result_bind].
    destruct (Z.eqb_spec (mode s) MODE_TERMINATE) as [|_]; [contradiction|]. cbn [negb].
    unfold transfer_into_at, deref_resource. rewrite Hr. cbn [mbind result_bind].
    rewrite (transfer_into_enough ro out Hok Hout). cbn [mbind result_bind].
    change (0 >? 0) with false. cbv iota.
    change (system_heap (set_resource_heap _ st) !! l) with (system_heap st !! l).
    rewrite Hs. cbn [mbind result_bind]. rewrite Ho.
    eexists. split; [reflexivity|]. cbn.
    repeat split.
    + apply lookup_insert_eq.
    + intros k Hk. apply lookup_insert_ne. congruence.
  - assert (out = 0) by lia. subst out.
    exists st. repeat split. rewrite Hr, Z.add_0_r, resource_eta. reflexivity.
Qed.

(** X17. A cycle that finds what it needs completes in one pass.  For a
    system not in Terminate whose input holds at least [input_amount]
    and whose output, a different resource, has room for
    [output_amount]: [system_run] returns; the input has gone down by
    [input_amount] and the output up by [output_amount], no other
    resource has changed, and no system has; the only wait is the
    processing delay; the Produced event is in the queue, and no event
    has left it. *)
Theorem system_run_cycle :
  forall (fuel : nat) (st : State) (l : nat) (s : System)
         (i o : nat) (ri ro : Resource),
    system_heap st !! l = Some s ->
    mode s <> MODE_TERMINATE ->
    input (recipe s) = Some i -> output (recipe s) = Some o -> i <> o ->
    resource_heap st !! i = Some ri -> resource_heap st !! o = Some ro ->
    resource_ok ri -> resource_ok ro ->
    0 < input_amount (recipe s) <= amount ri ->
    0 <= output_amount (recipe s) <= max_capacity ro - amount ro ->
    exists st',
      system_run (S (S fuel)) l st = Done st' /\
      resource_heap st' !! i =
        Some {| name := name ri; amount := amount ri - input_amount (recipe s);
                max_capacity := max_capacity ri |} /\
      resource_heap st' !! o =
        Some {| name := name ro; amount := amount ro + output_amount (recipe s);
                max_capacity := max_capacity ro |} /\
      (forall k, k <> i -> k <> o -> resource_heap st' !! k = resource_heap st !! k) /\
      system_heap st' = system_heap st /\
      trace st' =
        trace st ++ [Out_usleep (int_div (int_mul (adjusted_processing_time s) 1000)
                                         PARAM_SPEED_MODIFIER)] /\
      In (event_init (Some l) (Some i) EVENT_PRODUCED) (event_queue st') /\
      forall e, In e (event_queue st) -> In e (event_queue st').
Proof.
  intros fuel st l s i o ri ro Hs Hm Hi Ho Hio Hri Hro Hoki Hoko Hin Hout.
  unfold system_run, deref_system. rewrite Hs. cbn [mbind result_bind].
  rewrite (pull_loop_enough fuel st l s i ri Hs Hm Hi Hri Hin).
  cbn [mbind result_bind].
  rewrite (transfer_from_enough_full ri (input_amount (recipe s)) Hoki ltac:(lia)).
  cbn [fst].
  set (ri' := {| name := name ri; amount := amount ri - input_amount (recipe s);
                 max_capacity := max_capacity ri |}).
  set (st1 := set_resource_heap (<[i := ri']> (resource_heap st)) st).
  unfold process_step. change (0 =? 0) with true. cbv iota.
  unfold system_simulate_process_time, deref_system.
  change (system_heap st1 !! l) with (system_heap st !! l).
  rewrite Hs. cbn [mbind result_bind].
  set (st1' := emit _ st1).
  change (system_heap st1' !! l) with (system_heap st !! l).
  rewrite Hs. cbn [mbind result_bind]. rewrite Hi.
  set (produced := event_init (Some l) (Some i) EVENT_PRODUCED).
  set (st2 := push_event produced st1').
  destruct (push_loop_enough fuel st2 l s o ro (output_amount (recipe s)))
    as (st3 & Hpush & Hsys3 & Hq3 & Htr3 & Ho3 & Hother3);
    [exact Hs | exact Hm | exact Ho | | exact Hoko | exact Hout |].
  { change (resource_heap st2) with (<[i := ri']> (resource_heap st)).
    rewrite lookup_insert_ne by exact Hio. exact Hro. }
  rewrite Hpush. cbn [mbind result_bind].
  destruct (report_recipe_thresholds_Done st3 l s i ri')
    as (st4 & Hrep & Hrh4 & Hsys4 & Htr4 & Hq4).
  { rewrite Hsys3. exact Hs. } { exact Hi. }
  { rewrite Hother3 by exact Hio.
    change (resource_heap st2) with (<[i := ri']> (resource_heap st)).
    apply lookup_insert_eq. }
  rewrite Hrep. exists st4. split; [reflexivity|].
  rewrite Hrh4, Hsys4, Htr4.
  split.
  { rewrite Hother3 by exact Hio.
    change (resource_heap st2) with (<[i := ri']> (resource_heap st)).
    apply lookup_insert_eq. }
  split; [exact Ho3|].
  split.
  { intros k Hki Hko. rewrite Hother3 by exact Hko.
    change (resource_heap st2) with (<[i := ri']> (resource_heap st)).
    apply lookup_insert_ne. congruence. }
  split; [rewrite Hsys3; reflexivity|].
  split; [rewrite Htr3; reflexivity|].
  split.
  - apply Hq4. rewrite Hq3. apply push_event_In. left; reflexivity.
  - intros e He. apply Hq4. rewrite Hq3. apply push_event_In. right; exact He.
Qed.

(** Propulsion alone in the scenario: Fuel 1000 to 995, Distance 0 to
    25. *)
Lemma system_run_cycle_propulsion :
  let st := initial_state in
  let l := propulsion_loc in
  let s := system_create "Propulsion"
             (recipe_init (Some fuel_loc) (Some distance_loc) 5 25 500) in
  let ri := resource_create "Fuel" 1000 1000 in
  let ro := resource_create "Distance" 0 1000 in
  exists st',
    system_run 2 l st = Done st' /\
    resource_heap st' !! fuel_loc =
      Some {| name := name ri; amount := amount ri - input_amount (recipe s);
              max_capacity := max_capacity ri |} /\
    resource_heap st' !! distance_loc =
      Some {| name := name ro; amount := amount ro + output_amount (recipe s);
              max_capacity := max_capacity ro |} /\
    (forall k, k <> fuel_loc -> k <> distance_loc ->
               resource_heap st' !! k = resource_heap st !! k) /\
    system_heap st' = system_heap st /\
    trace st' =
      trace st ++ [Out_usleep (int_div (int_mul (adjusted_processing_time s) 1000)
                                       PARAM_SPEED_MODIFIER)] /\
    In (event_init (Some l) (Some fuel_loc) EVENT_PRODUCED) (event_queue st') /\
    forall e, In e (event_queue st) -> In e (event_queue st').
Proof.
  intros st l s ri ro.
  apply (system_run_cycle 0 st l s fuel_loc distance_loc ri ro);
    try reflexivity;
    try (vm_compute; discriminate);
    try (vm_compute; repeat split; discriminate).
Defined.

Lemma push_walk_length q e : length (push_walk q e) = S (length q).
Proof.
  induction q as [|c next IH]; [reflexivity|]. simpl.
  destruct (priority c >=? priority e); simpl; [rewrite IH|]; reflexivity.
Qed.

Lemma transfer_from_short r amt :
  resource_ok r -> amount r < amt -> in_int amt ->
  resource_transfer_from r amt =
    ({| name := name r; amount := 0; max_capacity := max_capacity r |},
     amt - amount r).
Proof.
  intros [Ha Hm] Hlt Hint. unfold in_int, INT_MIN, INT_MAX in *.
  unfold resource_transfer_from, int_sub.
  destruct (Z.ltb_spec (amount r) amt); [|lia].
  rewrite Z.sub_diag, (wrap_small (amt - amount r))
    by (unfold in_int, INT_MIN, INT_MAX; lia).
  reflexivity.
Qed.

Lemma pull_loop_starved l s i fuel : forall st amt r,
  system_heap st !! l = Some s ->
  mode s <> MODE_TERMINATE ->
  input (recipe s) = Some i ->
  resource_heap st !! i = Some r ->
  resource_ok r -> amount r < amt -> in_int amt ->
  exists st',
    pull_loop fuel l amt st = OutOfFuel st' /\
    length (event_queue st') = (length (event_queue st) + fuel)%nat /\
    trace st' = trace st ++ replicate fuel system_wait /\
    system_heap st' = system_heap st /\
    (fuel = 0%nat -> st' = st) /\
    ((0 < fuel)%nat ->
     resource_heap st' =
       <[i := {| name := name r; amount := 0; max_capacity := max_capacity r |}]>
         (resource_heap st)) /\
    (forall e, In e (event_queue st') ->
               In e (event_queue st) \/
               e = event_init (Some l) (Some i) EVENT_INSUFFICIENT).
Proof.
  induction fuel as [|fuel IH]; intros st amt r Hs Hm Hi Hr Hok Hlt Hint;
    cbn [pull_loop].
  - exists st. split; [reflexivity|]. split; [lia|].
    split; [cbn; rewrite app_nil_r; reflexivity|]. split; [reflexivity|].
    split; [reflexivity|]. split; [lia | auto].
  - pose proof Hok as [Ha Hcap].
    destruct (Z.gtb_spec amt 0) as [_|]; [|lia].
    unfold system_get_mode, deref_system. rewrite Hs. cbn [mbind result_bind].
    destruct (Z.eqb_spec (mode s) MODE_TERMINATE) as [|_]; [contradiction|]. cbn [negb].
    rewrite Hi. unfold transfer_from_at, deref_resource. rewrite Hr.
    cbn [mbind result_bind].
    rewrite (transfer_from_short r amt Hok Hlt Hint). cbn [mbind result_bind].
    destruct (Z.gtb_spec (amt - amount r) 0) as [_|]; [|lia].
    change (negb (SINGLE_THREAD_MODE =? 0)) with false. cbv iota.
    set (r0 := {| name := name r; amount := 0; max_capacity := max_capacity r |}).
    set (event := event_init (Some l) (Some i) EVENT_INSUFFICIENT).
    set (st2 := emit system_wait
                  (push_event event
                     (set_resource_heap (<[i := r0]> (resource_heap st)) st))).
    destruct (IH st2 (amt - amount r) r0)
      as (st' & Hrun & Hlen & Htr & Hsys & Hzero & Hheap & Hev).
    { exact Hs. } { exact Hm. } { exact Hi. }
    { apply lookup_insert_eq. }
    { split; [cbn; lia | exact Hcap]. }
    { cbn. lia. }
    { unfold in_int, INT_MIN, INT_MAX in *. lia. }
    exists st'. split; [exact Hrun|].
    assert (Hq2 : event_queue st2 = push_walk (event_queue st) event)
      by (unfold st2, push_event; cbn; apply event_queue_push_walk).
    split; [rewrite Hlen, Hq2, push_walk_length; lia|].
    split.
    { rewrite Htr. unfold st2. cbn. rewrite <- app_assoc. reflexivity. }
    split; [exact Hsys|]. split; [discriminate|]. split.
    + intros _. destruct fuel as [|fuel].
      * rewrite (Hzero eq_refl). reflexivity.
      * rewrite Hheap by lia. unfold st2. cbn. apply insert_insert_eq.
    + intros e He. destruct (Hev e He) as [Hin|Heq]; [|right; exact Heq].
      rewrite Hq2 in Hin. apply push_walk_In in Hin.
      destruct Hin as [->|Hin]; [right; reflexivity | left; exact Hin].
Qed.

(** X18. A cycle that is short of input never completes by itself.  For
    a system not in Terminate whose input holds less than
    [input_amount]: whatever the fuel, [system_run] is still in its
    first loop when the fuel is used up.  The first attempt takes the
    whole stock, which is not given back; every attempt pushes one
    Insufficient event and waits once; nothing else is pushed, and no
    system changes. *)
Theorem system_run_starved :
  forall (fuel : nat) (st : State) (l : nat) (s : System) (i : nat) (r : Resource),
    system_heap st !! l = Some s ->
    mode s <> MODE_TERMINATE ->
    input (recipe s) = Some i ->
    resource_heap st !! i = Some r ->
    resource_ok r ->
    amount r < input_amount (recipe s) -> in_int (input_amount (recipe s)) ->
    exists st',
      system_run fuel l st = OutOfFuel st' /\
      length (event_queue st') = (length (event_queue st) + fuel)%nat /\
      trace st' = trace st ++ replicate fuel system_wait /\
      system_heap st' = system_heap st /\
      ((0 < fuel)%nat ->
       resource_heap st' =
         <[i := {| name := name r; amount := 0; max_capacity := max_capacity r |}]>
           (resource_heap st)) /\
      (forall e, In e (event_queue st') ->
                 In e (event_queue st) \/
                 e = event_init (Some l) (Some i) EVENT_INSUFFICIENT).
Proof.
  intros fuel st l s i r Hs Hm Hi Hr Hok Hlt Hint.
  destruct (pull_loop_starved l s i fuel st (input_amount (recipe s)) r
              Hs Hm Hi Hr Hok Hlt Hint)
    as (st' & Hrun & Hlen & Htr & Hsys & _ & Hheap & Hev).
  exists st'. unfold system_run, deref_system. rewrite Hs. cbn [mbind result_bind].
  rewrite Hrun. cbn [mbind result_bind]. auto 10.
Qed.

(** Life Support needs 10 of Energy; with 7 in store it takes the 7 and
    keeps asking. *)
Lemma system_run_starved_life_support :
  let st := set_resource_heap
              (<[energy_loc := resource_create "Energy" 7 50]>
                 (resource_heap initial_state)) initial_state in
  let l := life_support_loc in
  let r := resource_create "Energy" 7 50 in
  exists st',
    system_run 3 l st = OutOfFuel st' /\
    length (event_queue st') = (length (event_queue st) + 3)%nat /\
    trace st' = trace st ++ replicate 3 system_wait /\
    system_heap st' = system_heap st /\
    ((0 < 3)%nat ->
     resource_heap st' =
       <[energy_loc := {| name := name r; amount := 0;
                          max_capacity := max_capacity r |}]>
         (resource_heap st)) /\
    (forall e, In e (event_queue st') ->
               In e (event_queue st) \/
               e = event_init (Some l) (Some energy_loc) EVENT_INSUFFICIENT).
Proof.
  intros st l r.
  apply (system_run_starved 3 st l
           (system_create "Life Support"
              (recipe_init (Some energy_loc) (Some oxygen_loc) 10 5 100))
           energy_loc r);
    try reflexivity;
    try (vm_compute; discriminate);
    try (vm_compute; repeat split; discriminate).
Defined.
